(** * pmap-lit: a shallow embedding of [pMap] and [AggregateError]

    The development follows the TypeScript sources ([src/index.ts],
    [src/aggregate-error.ts]) and their JavaScript predecessors.  Asynchronous
    code is embedded as a transition system: every [await] of the source is a
    suspension point, the code between two suspension points is one atomic
    step (JavaScript is single threaded), and an event names the suspended
    continuation that is resumed next. *)

From stdpp Require Import gmap list numbers strings.
From Stdlib Require Import QArith.
Close Scope Q_scope.
Open Scope nat_scope.

(** ** JavaScript strings: sequences of UTF-16 code units *)

Abbreviation jsstring := (list N).

Definition jsstr (s : string) : jsstring :=
  map Ascii.N_of_ascii (String.list_ascii_of_string s).

(** The string ['\n']. *)
Definition LF : jsstring := [10%N].

(** LineTerminator of ECMAScript: LF, CR, LS, PS. *)
Definition isLineTerminator (c : N) : bool :=
  bool_decide (c = 10 ∨ c = 13 ∨ c = 8232 ∨ c = 8233)%N.

(** The class [\s]: WhiteSpace and LineTerminator code points. *)
Definition isWhiteSpace (c : N) : bool :=
  isLineTerminator c ||
  bool_decide (c = 9 ∨ c = 11 ∨ c = 12 ∨ c = 32 ∨ c = 160 ∨ c = 5760 ∨
               (8192 ≤ c ∧ c ≤ 8202) ∨ c = 8239 ∨ c = 8287 ∨ c = 12288 ∨
               c = 65279)%N.

(** The class [\d]. *)
Definition isDigit (c : N) : bool := bool_decide (48 ≤ c ∧ c ≤ 57)%N.

(** [Array.prototype.join]. *)
Fixpoint join (sep : jsstring) (parts : list jsstring) : jsstring :=
  match parts with
  | [] => []
  | [p] => p
  | p :: rest => p ++ sep ++ join sep rest
  end.

Fixpoint strip_prefix (p s : jsstring) : option jsstring :=
  match p, s with
  | [], _ => Some s
  | a :: p', b :: s' => if bool_decide (a = b) then strip_prefix p' s' else None
  | _ :: _, [] => None
  end.

(** ** aggregate-error.ts *)

Module AggregateError.

(** An [Error] instance: the three properties the module reads.  [stack] is
    [None] when [typeof error.stack] is not ['string']. *)
Record JsError := mkError {
  name : jsstring;
  message : jsstring;
  stack : option jsstring;
}.

(** [type ErrorLike = Error | { message: string } | string] *)
Inductive ErrorLike :=
| ErrObject (e : JsError)
| ErrPlain (message : jsstring)
| ErrString (s : jsstring).

(** The text a failure carries, whatever its shape. *)
Definition text (error : ErrorLike) : jsstring :=
  match error with
  | ErrObject e => message e
  | ErrPlain m => m
  | ErrString s => s
  end.

(** [Error.prototype.toString], reached through [String(error)]. *)
Definition Error_toString (e : JsError) : jsstring :=
  match name e, message e with
  | [], m => m
  | n, [] => n
  | n, m => n ++ jsstr ": " ++ m
  end.

(** *** [indentString] *)

(** The lookahead [\s*$] (flag [m]) at the head of [s]: the rest of the
    current line is made of white space only. *)
Fixpoint blank_line (s : jsstring) : bool :=
  match s with
  | [] => true
  | c :: s' =>
      if isLineTerminator c then true
      else if isWhiteSpace c then blank_line s' else false
  end.

(** [string.replace(regex, pad)]: [bol] says whether [^] (flag [m]) matches
    at the head of [s]; [regex] is [/^/gm] when [includeEmptyLines] and
    [/^(?!\s*$)/gm] otherwise. *)
Fixpoint indent_from (bol includeEmptyLines : bool) (pad s : jsstring)
  : jsstring :=
  let here :=
    if bol && (includeEmptyLines || negb (blank_line s)) then pad else [] in
  match s with
  | [] => here
  | c :: s' =>
      here ++ c :: indent_from (isLineTerminator c) includeEmptyLines pad s'
  end.

Fixpoint repeat_string (indent : jsstring) (count : nat) : jsstring :=
  match count with
  | O => []
  | S n => indent ++ repeat_string indent n
  end.

Definition indentString (string : jsstring) (count : nat)
    (indent : jsstring) (includeEmptyLines : bool) : jsstring :=
  if bool_decide (count = 0) then string
  else indent_from true includeEmptyLines (repeat_string indent count) string.

(** *** [cleanInternalStack]:
    [stack.replace(/\s+at .*aggregate-error\/index.js:\d+:\d+\)?/g, '')] *)

Fixpoint skip_digits (s : jsstring) : jsstring :=
  match s with
  | c :: r => if isDigit c then skip_digits r else s
  | [] => []
  end.

(** [\d+]: greedy, at least one digit. *)
Definition digits (s : jsstring) : option jsstring :=
  match s with
  | c :: r => if isDigit c then Some (skip_digits r) else None
  | [] => None
  end.

(** [aggregate-error\/index.js:\d+:\d+\)?] at the head of [s]; the result is
    what follows the match. *)
Definition match_location (s : jsstring) : option jsstring :=
  r1 ← strip_prefix (jsstr "aggregate-error/index.js:") s;
  r2 ← digits r1;
  r3 ← strip_prefix (jsstr ":") r2;
  r4 ← digits r3;
  Some (match r4 with
        | c :: r5 => if bool_decide (c = 41%N) then r5 else r4
        | [] => r4
        end).

(** [.*] followed by the location: [.] stops at line terminators and the
    star is greedy, so the last location on the line is the one matched. *)
Fixpoint match_rest_of_frame (s : jsstring) : option jsstring :=
  match s with
  | [] => None
  | c :: r =>
      if isLineTerminator c then None
      else match match_rest_of_frame r with
           | Some rest => Some rest
           | None => match_location s
           end
  end.

Fixpoint skip_spaces (s : jsstring) : jsstring :=
  match s with
  | c :: r => if isWhiteSpace c then skip_spaces r else s
  | [] => []
  end.

(** The whole pattern at the head of [s]. *)
Definition match_frame (s : jsstring) : option jsstring :=
  match s with
  | c :: r =>
      if isWhiteSpace c then
        r1 ← strip_prefix (jsstr "at ") (skip_spaces r);
        match_rest_of_frame r1
      else None
  | [] => None
  end.

(** The global replace: [skip] counts the code units of the current match
    that are still to be dropped. *)
Fixpoint clean_from (skip : nat) (s : jsstring) : jsstring :=
  match s with
  | [] => []
  | c :: r =>
      match skip with
      | S k => clean_from k r
      | O =>
          match match_frame s with
          | Some rest => clean_from (length r - length rest) r
          | None => c :: clean_from 0 r
          end
      end
  end.

Definition cleanInternalStack (stack : jsstring) : jsstring :=
  clean_from 0 stack.

(** *** The constructor and [errors()] *)

(** Arrays are objects: the store maps a reference to the array it names. *)
Abbreviation store := (gmap nat (list JsError)).

Section Constructor.

(** The [stack] the engine attaches to [new Error(message)] built inside the
    constructor (on V8 a header with the message followed by the frames). *)
Variable stackTrace : jsstring → option jsstring.

Definition new_Error (message : jsstring) : JsError :=
  {| name := jsstr "Error"; message := message; stack := stackTrace message |}.

(** The callback of [errors.map]: an [Error] is kept, a plain object gives
    [Object.assign(new Error(error.message), error)], anything else
    [new Error(error)]. *)
Definition normalize (error : ErrorLike) : JsError :=
  match error with
  | ErrObject e => e
  | ErrPlain m => new_Error m
  | ErrString s => new_Error s
  end.

(** The callback of the second [map]. *)
Definition describe (error : JsError) : jsstring :=
  match stack error with
  | Some st => cleanInternalStack st
  | None => Error_toString error
  end.

(** The message handed to [super]: ['\n' + indentString(message, 4)]. *)
Definition render (errors : list JsError) : jsstring :=
  LF ++ indentString (join LF (map describe errors)) 4 (jsstr " ") false.

(** An instance as a value: the normalized failures and the message handed to
    [super]. *)
Record t := mk {
  _errors : list JsError;
  agg_message : jsstring;
}.

Definition create (errors : list ErrorLike) : t :=
  let errors := map normalize errors in
  {| _errors := errors; agg_message := render errors |}.

Definition alloc (a : list JsError) (h : store) : nat * store :=
  let r := fresh (dom h) in (r, <[r := a]> h).

(** An instance in the store: [this._errors] is a reference. *)
Record instance := mkInstance {
  errors_ref : nat;
  instance_message : jsstring;
}.

(** [new AggregateError(errors)]; [None] is the [TypeError] thrown when the
    argument is not an array. *)
Definition construct (errors : option (list ErrorLike)) (h : store)
  : option (instance * store) :=
  match errors with
  | None => None
  | Some errors =>
      let v := create errors in
      let '(r, h') := alloc (_errors v) h in
      Some ({| errors_ref := r; instance_message := agg_message v |}, h')
  end.

(** [errors()]: [this._errors.slice()]. *)
Definition errors (this : instance) (h : store) : nat * store :=
  alloc (h !!! errors_ref this) h.

(** Any in-place update of the array behind a reference ([push], [pop],
    [splice], an indexed write, a write to [length], ...). *)
Definition mutate (r : nat) (f : list JsError → list JsError) (h : store)
  : store :=
  alter f r h.

End Constructor.

End AggregateError.

(** ** JavaScript numbers, as far as [concurrency] needs them *)

Inductive jsnumber :=
| NaN
| PosInfinity
| NegInfinity
| Finite (q : Q).

(** [Number.isSafeInteger]. *)
Definition isSafeInteger (x : jsnumber) : bool :=
  match x with
  | Finite q =>
      bool_decide (Qden (Qred q) = 1%positive) &&
      bool_decide (Z.abs (Qnum (Qred q)) ≤ 2 ^ 53 - 1)%Z
  | _ => false
  end.

(** [x >= 1]. *)
Definition ge_one (x : jsnumber) : bool :=
  match x with
  | PosInfinity => true
  | Finite q => Qle_bool 1 q
  | _ => false
  end.

(** [index < x] for a loop counter [index]. *)
Definition index_lt (index : nat) (x : jsnumber) : bool :=
  match x with
  | PosInfinity => true
  | Finite q => negb (Qle_bool q (inject_Z (Z.of_nat index)))
  | _ => false
  end.

(** [n <= x] for a count [n]. *)
Definition count_le (n : nat) (x : jsnumber) : Prop :=
  match x with
  | PosInfinity => True
  | Finite q => (inject_Z (Z.of_nat n) <= q)%Q
  | _ => False
  end.

Definition assertConcurrency (concurrency : jsnumber) : bool :=
  (isSafeInteger concurrency ||
   match concurrency with PosInfinity => true | _ => false end) &&
  ge_one concurrency.

(** ** index.ts (and index.js) *)

Module PMap.

Abbreviation ErrorLike := AggregateError.ErrorLike.

(** How an awaited value settles; for a call, how it returns or throws. *)
Inductive outcome (A : Type) :=
| Fulfils (a : A)
| Rejects (e : ErrorLike).
Arguments Fulfils {A} a.
Arguments Rejects {A} e.

(** What the mapper hands back: [R | typeof pMapSkip]. *)
Inductive mapped (R : Type) :=
| pMapSkip
| Value (r : R).
Arguments pMapSkip {R}.
Arguments Value {R} r.

(** One call of the source's [next()] before the source is exhausted: an
    element (possibly a promise) or an exception. *)
Inductive pull (T : Type) :=
| Yields (value : outcome T)
| Throws (e : ErrorLike).
Arguments Yields {T} value.
Arguments Throws {T} e.

(** What [await iterator.next()] gives. *)
Inductive iteration (T : Type) :=
| Item (value : outcome T)
| Finished
| Fails (e : ErrorLike).
Arguments Item {T} value.
Arguments Finished {T}.
Arguments Fails {T} e.

(** An iterator: the pulls it still answers, after which it reports
    [done] for ever. *)
Definition iterator_next {T} (it : list (pull T))
  : iteration T * list (pull T) :=
  match it with
  | [] => (Finished, [])
  | Yields value :: rest => (Item value, rest)
  | Throws e :: rest => (Fails e, rest)
  end.

(** The two sources of [pMap]. *)
Inductive impl := TS | JS.

(** The first argument: a primitive value or an object, with the
    [Symbol.iterator] and [Symbol.asyncIterator] methods it has.  A primitive
    has the methods of its wrapper: a string has [Symbol.iterator], a number
    or a boolean has none. *)
Inductive iterable (T : Type) :=
| Primitive (sync : option (list (pull T)))
| Object (sync async : option (list (pull T))).
Arguments Primitive {T} sync.
Arguments Object {T} sync async.

(** The second argument. *)
Inductive callable (T R : Type) :=
| NotAFunction
| Function (f : T → nat → outcome (mapped R)).
Arguments NotAFunction {T R}.
Arguments Function {T R} f.

Record Options := mkOptions {
  concurrency : option jsnumber;
  stopOnError : option bool;
}.

(** The errors of input validation, by the check that raised them. *)
Inductive check := InputIsIterable | MapperIsFunction | ConcurrencyIsValid.

(** A rejection reason. *)
Inductive reason :=
| PMapError (c : check)
| TypeError (c : check)
| Thrown (e : ErrorLike)
| Aggregate (a : AggregateError.t).

(** Who awaits a call of [next()]: the loop that creates the runners, or a
    detached task, from its [try] block or from its [catch] block. *)
Inductive caller :=
| ByRunner
| ByTask (inCatch : bool).

(** The loop at the end of [pMap]: awaiting [next()] in iteration [index],
    resumable with the result of that [next()], or left. *)
Inductive runner :=
| RunnerAwaits (index : nat)
| RunnerReady (index : nat) (thrown : option ErrorLike)
| RunnerExited.

(** The [await] a detached task is suspended at before it calls [next()]:
    [await nextItem.value] or [await mapper(element, index)], with what the
    awaited value settles to. *)
Inductive stage (T R : Type) :=
| AwaitElement (value : outcome T)
| AwaitMapper (value : outcome (mapped R)).
Arguments AwaitElement {T R} value.
Arguments AwaitMapper {T R} value.

(** A call of [resolve] or [_reject].  [resolve(result)] hands out the
    array [result] itself, [resolve(pureResult)] a new array. *)
Inductive settlement (R : Type) :=
| ResolvedResult
| ResolvedPure (pureResult : list (option (mapped R)))
| Rejected (r : reason).
Arguments ResolvedResult {R}.
Arguments ResolvedPure {R} pureResult.
Arguments Rejected {R} r.

(** The continuation that runs next. *)
Inductive event :=
| IteratorSettles
| RunnerResumes
| ElementSettles (index : nat)
| MapperSettles (index : nat)
| NextRejects (n : nat).

(** [result[index] = value] on a JavaScript array; [None] is a hole. *)
Definition array_set {A} (a : list (option A)) (index : nat) (value : A)
  : list (option A) :=
  if bool_decide (index < length a) then <[index := Some value]> a
  else a ++ replicate (index - length a) None ++ [Some value].

(** The loop over [result.entries()] that builds [pureResult]; a hole is
    visited and gives [undefined]. *)
Fixpoint pure_from {R} (index : nat) (entries : list (option (mapped R)))
    (skippedIndexesMap : gmap nat (mapped R)) : list (option (mapped R)) :=
  match entries with
  | [] => []
  | value :: rest =>
      match skippedIndexesMap !! index with
      | Some pMapSkip => pure_from (S index) rest skippedIndexesMap
      | _ => value :: pure_from (S index) rest skippedIndexesMap
      end
  end.

(** The mapped values without those that ask to be skipped. *)
Fixpoint without_skipped {R} (values : list (mapped R)) : list (mapped R) :=
  match values with
  | [] => []
  | pMapSkip :: rest => without_skipped rest
  | Value r :: rest => Value r :: without_skipped rest
  end.

Section Closure.

Variables T R : Type.

(** The variables of the promise executor; the suspended continuations
    ([pulls]: calls of [next()] at [await iterator.next()], oldest first;
    [loop]: the loop of the runners; [tasks]: detached tasks before their
    [next()], by index; [rejections]: tasks whose [await next()] is about to
    throw); and two histories: the mapper calls made and the failures
    caught. *)
Record State := mkState {
  result : list (option (mapped R));
  errors : list ErrorLike;
  skippedIndexesMap : gmap nat (mapped R);
  isRejected : bool;
  isResolved : bool;
  isIterableDone : bool;
  resolvingCount : Z;
  currentIndex : nat;
  iterator : list (pull T);
  settlements : list (settlement R);
  pulls : list (caller * iteration T);
  loop : runner;
  tasks : gmap nat (stage T R);
  rejections : list (bool * ErrorLike);
  invoked : list (T * nat);
  caught : list ErrorLike;
}.

Definition with_result v (s : State) :=
  let '(mkState _ b c d e f g h i j k l m n o p) := s in
  mkState v b c d e f g h i j k l m n o p.
Definition with_errors v (s : State) :=
  let '(mkState a _ c d e f g h i j k l m n o p) := s in
  mkState a v c d e f g h i j k l m n o p.
Definition with_skippedIndexesMap v (s : State) :=
  let '(mkState a b _ d e f g h i j k l m n o p) := s in
  mkState a b v d e f g h i j k l m n o p.
Definition with_isRejected v (s : State) :=
  let '(mkState a b c _ e f g h i j k l m n o p) := s in
  mkState a b c v e f g h i j k l m n o p.
Definition with_isResolved v (s : State) :=
  let '(mkState a b c d _ f g h i j k l m n o p) := s in
  mkState a b c d v f g h i j k l m n o p.
Definition with_isIterableDone v (s : State) :=
  let '(mkState a b c d e _ g h i j k l m n o p) := s in
  mkState a b c d e v g h i j k l m n o p.
Definition with_resolvingCount v (s : State) :=
  let '(mkState a b c d e f _ h i j k l m n o p) := s in
  mkState a b c d e f v h i j k l m n o p.
Definition with_currentIndex v (s : State) :=
  let '(mkState a b c d e f g _ i j k l m n o p) := s in
  mkState a b c d e f g v i j k l m n o p.
Definition with_iterator v (s : State) :=
  let '(mkState a b c d e f g h _ j k l m n o p) := s in
  mkState a b c d e f g h v j k l m n o p.
Definition with_settlements v (s : State) :=
  let '(mkState a b c d e f g h i _ k l m n o p) := s in
  mkState a b c d e f g h i v k l m n o p.
Definition with_pulls v (s : State) :=
  let '(mkState a b c d e f g h i j _ l m n o p) := s in
  mkState a b c d e f g h i j v l m n o p.
Definition with_loop v (s : State) :=
  let '(mkState a b c d e f g h i j k _ m n o p) := s in
  mkState a b c d e f g h i j k v m n o p.
Definition with_tasks v (s : State) :=
  let '(mkState a b c d e f g h i j k l _ n o p) := s in
  mkState a b c d e f g h i j k l v n o p.
Definition with_rejections v (s : State) :=
  let '(mkState a b c d e f g h i j k l m _ o p) := s in
  mkState a b c d e f g h i j k l m v o p.
Definition with_invoked v (s : State) :=
  let '(mkState a b c d e f g h i j k l m n _ p) := s in
  mkState a b c d e f g h i j k l m n v p.
Definition with_caught v (s : State) :=
  let '(mkState a b c d e f g h i j k l m n o _) := s in
  mkState a b c d e f g h i j k l m n o v.

(** The state of the promise [pMap] returned: a promise keeps its first
    settlement. *)
Definition promise (s : State) : option (settlement R) :=
  head (settlements s).

(** The array a consumer of the promise holds, read now. *)
Definition fulfilled (s : State) : option (list (option (mapped R))) :=
  match promise s with
  | Some ResolvedResult => Some (result s)
  | Some (ResolvedPure pureResult) => Some pureResult
  | _ => None
  end.

Definition rejected (s : State) : option reason :=
  match promise s with
  | Some (Rejected r) => Some r
  | _ => None
  end.

(** Mapper calls that have started and not settled. *)
Definition mapping (st : stage T R) : bool :=
  match st with AwaitMapper _ => true | _ => false end.

Definition inFlight (s : State) : nat :=
  size (filter (λ kv, mapping kv.2 = true) (tasks s)).

Variable implementation : impl.
Variable mapper : callable T R.
Variable concurrency : jsnumber.
Variable stopOnError : bool.
Variable stackTrace : jsstring → option jsstring.

(** [mapper(element, index)]; calling what is not a function throws. *)
Definition call_mapper (element : T) (index : nat) : outcome (mapped R) :=
  match mapper with
  | Function f => f element index
  | NotAFunction =>
      Rejects (AggregateError.ErrObject
        (AggregateError.mkError (jsstr "TypeError")
           (jsstr "mapper is not a function") None))
  end.

Definition settle (o : settlement R) (s : State) : State :=
  with_settlements (settlements s ++ [o]) s.

Definition resolve := settle.

Definition reject (r : reason) (s : State) : State :=
  let s := with_isRejected true s in
  let s := with_isResolved true s in
  settle (Rejected r) s.

(** [await next()] resumes normally.  Nothing follows it in a task. *)
Definition next_returns (c : caller) (s : State) : State :=
  match c with
  | ByRunner =>
      match loop s with
      | RunnerAwaits index => with_loop (RunnerReady index None) s
      | _ => s
      end
  | ByTask _ => s
  end.

(** [await next()] will throw. *)
Definition next_throws (c : caller) (e : ErrorLike) (s : State) : State :=
  match c with
  | ByRunner =>
      match loop s with
      | RunnerAwaits index => with_loop (RunnerReady index (Some e)) s
      | _ => s
      end
  | ByTask inCatch => with_rejections (rejections s ++ [(inCatch, e)]) s
  end.

(** [next()] up to [await iterator.next()]. *)
Definition next (c : caller) (s : State) : State :=
  if isResolved s then next_returns c s
  else
    let '(nextItem, rest) := iterator_next (iterator s) in
    let s := with_iterator rest s in
    with_pulls (pulls s ++ [(c, nextItem)]) s.

(** The body of [if (nextItem.done)] after [isIterableDone = true]. *)
Definition finish (s : State) : State :=
  if bool_decide (resolvingCount s = 0%Z) && negb (isResolved s) then
    if negb stopOnError && bool_decide (0 < length (errors s)) then
      reject (Aggregate (AggregateError.create stackTrace (errors s))) s
    else
      let s := with_isResolved true s in
      if bool_decide (size (skippedIndexesMap s) = 0) then
        resolve ResolvedResult s
      else
        resolve (ResolvedPure (pure_from 0 (result s) (skippedIndexesMap s))) s
  else s.

(** The detached task starts and runs up to [await nextItem.value]; index.js
    tests [isResolved] before that [await], index.ts after it. *)
Definition start_task (index : nat) (value : outcome T) (s : State) : State :=
  match implementation with
  | JS => if isResolved s then s
          else with_tasks (<[index := AwaitElement value]> (tasks s)) s
  | TS => with_tasks (<[index := AwaitElement value]> (tasks s)) s
  end.

(** [next()] from [await iterator.next()] on. *)
Definition next_resumes (c : caller) (nextItem : iteration T) (s : State)
  : State :=
  match nextItem with
  | Fails e => next_throws c e s
  | Finished =>
      let s := with_currentIndex (S (currentIndex s)) s in
      let s := with_isIterableDone true s in
      next_returns c (finish s)
  | Item value =>
      let index := currentIndex s in
      let s := with_currentIndex (S index) s in
      let s := with_resolvingCount (resolvingCount s + 1)%Z s in
      next_returns c (start_task index value s)
  end.

(** The [catch] block of the task. *)
Definition catch (error : ErrorLike) (s : State) : State :=
  let s := with_caught (caught s ++ [error]) s in
  if stopOnError then reject (Thrown error) s
  else
    let s := with_errors (errors s ++ [error]) s in
    let s := with_resolvingCount (resolvingCount s - 1)%Z s in
    next (ByTask true) s.

(** The [catch] block around the second [await next()]. *)
Definition catch_in_catch (error : ErrorLike) (s : State) : State :=
  let s := with_caught (caught s ++ [error]) s in
  reject (Thrown error) s.

(** The task from the end of [await nextItem.value] to
    [await mapper(element, index)]. *)
Definition element_settles (index : nat) (value : outcome T) (s : State)
  : State :=
  let s := with_tasks (delete index (tasks s)) s in
  match value with
  | Rejects error => catch error s
  | Fulfils element =>
      let call s :=
        let s := with_invoked (invoked s ++ [(element, index)]) s in
        with_tasks
          (<[index := AwaitMapper (call_mapper element index)]> (tasks s)) s in
      match implementation with
      | TS => if isResolved s then s else call s
      | JS => call s
      end
  end.

(** The task from the end of [await mapper(element, index)] to
    [await next()]. *)
Definition mapper_settles (index : nat) (value : outcome (mapped R))
    (s : State) : State :=
  let s := with_tasks (delete index (tasks s)) s in
  match value with
  | Rejects error => catch error s
  | Fulfils value =>
      let s :=
        match value with
        | pMapSkip =>
            with_skippedIndexesMap (<[index := value]> (skippedIndexesMap s)) s
        | Value _ => s
        end in
      let s := with_result (array_set (result s) index value) s in
      let s := with_resolvingCount (resolvingCount s - 1)%Z s in
      next (ByTask false) s
  end.

(** The [for] loop of the runners from the test [index < concurrency] to
    [await next()]. *)
Definition runner_loop (index : nat) (s : State) : State :=
  if index_lt index concurrency then
    next ByRunner (with_loop (RunnerAwaits index) s)
  else with_loop RunnerExited s.

(** The loop after [await next()]. *)
Definition runner_resumes (index : nat) (thrown : option ErrorLike)
    (s : State) : State :=
  match thrown with
  | Some error =>
      let s := with_caught (caught s ++ [error]) s in
      with_loop RunnerExited (reject (Thrown error) s)
  | None =>
      if isIterableDone s || isRejected s then with_loop RunnerExited s
      else runner_loop (S index) s
  end.

(** One turn of the event loop; [None] when the event names no suspended
    continuation.  Calls of [iterator.next()] settle in the order they were
    made. *)
Definition step (s : State) (ev : event) : option State :=
  match ev with
  | IteratorSettles =>
      match pulls s with
      | (c, nextItem) :: rest => Some (next_resumes c nextItem (with_pulls rest s))
      | [] => None
      end
  | RunnerResumes =>
      match loop s with
      | RunnerReady index thrown => Some (runner_resumes index thrown s)
      | _ => None
      end
  | ElementSettles index =>
      match tasks s !! index with
      | Some (AwaitElement value) => Some (element_settles index value s)
      | _ => None
      end
  | MapperSettles index =>
      match tasks s !! index with
      | Some (AwaitMapper value) => Some (mapper_settles index value s)
      | _ => None
      end
  | NextRejects n =>
      match rejections s !! n with
      | Some (inCatch, e) =>
          let s := with_rejections (delete n (rejections s)) s in
          Some (if inCatch : bool then catch_in_catch e s else catch e s)
      | None => None
      end
  end.

Fixpoint run (s : State) (evs : list event) : option State :=
  match evs with
  | [] => Some s
  | ev :: evs' =>
      match step s ev with
      | Some s' => run s' evs'
      | None => None
      end
  end.

(** The executor's variables as declared, over the iterator [it]. *)
Definition declared (it : list (pull T)) : State :=
  {| result := []; errors := []; skippedIndexesMap := ∅;
     isRejected := false; isResolved := false; isIterableDone := false;
     resolvingCount := 0; currentIndex := 0; iterator := it;
     settlements := []; pulls := []; loop := RunnerExited; tasks := ∅;
     rejections := []; invoked := []; caught := [] |}.

(** The executor threw: the promise is rejected and nothing is suspended. *)
Definition thrown_by_executor (r : reason) : State :=
  settle (Rejected r) (declared []).

End Closure.

Arguments result {T R} s.
Arguments errors {T R} s.
Arguments skippedIndexesMap {T R} s.
Arguments isRejected {T R} s.
Arguments isResolved {T R} s.
Arguments isIterableDone {T R} s.
Arguments resolvingCount {T R} s.
Arguments currentIndex {T R} s.
Arguments iterator {T R} s.
Arguments settlements {T R} s.
Arguments pulls {T R} s.
Arguments loop {T R} s.
Arguments tasks {T R} s.
Arguments rejections {T R} s.
Arguments invoked {T R} s.
Arguments caught {T R} s.
Arguments promise {T R} s.
Arguments fulfilled {T R} s.
Arguments rejected {T R} s.
Arguments inFlight {T R} s.
Arguments step {T R}.
Arguments run {T R}.

Section Call.

Context {T R : Type}.

(** The checks at the head of the executor.  index.ts runs them in a [try]
    whose [catch] turns anything that is not a [PMapError] (the [in]
    operator throws on a primitive) into a [TypeError]; index.js throws a
    [TypeError] for each. *)
Definition validate (i : impl) (input : iterable T) (mapper : callable T R)
    (concurrency : jsnumber) : option reason :=
  match i with
  | TS =>
      match input with
      | Primitive _ => Some (TypeError InputIsIterable)
      | Object None None => Some (PMapError InputIsIterable)
      | Object _ _ =>
          match mapper with
          | NotAFunction => Some (PMapError MapperIsFunction)
          | Function _ =>
              if assertConcurrency concurrency then None
              else Some (PMapError ConcurrencyIsValid)
          end
      end
  | JS =>
      match input with
      | Primitive None | Object None None => Some (TypeError InputIsIterable)
      | Primitive (Some _) | Object _ _ =>
          match mapper with
          | NotAFunction => Some (TypeError MapperIsFunction)
          | Function _ =>
              if assertConcurrency concurrency then None
              else Some (TypeError ConcurrencyIsValid)
          end
      end
  end.

(** The iterator the executor takes: index.ts asks
    [Symbol.asyncIterator in iterable] first, index.js asks
    [iterable[Symbol.iterator] === undefined] first.  [None]: the [in]
    operator throws, or the method called is [undefined]. *)
Definition get_iterator (i : impl) (input : iterable T)
  : option (list (pull T)) :=
  match input with
  | Primitive sync => match i with TS => None | JS => sync end
  | Object sync async =>
      match i with
      | TS => match async with Some _ => async | None => sync end
      | JS => match sync with Some _ => sync | None => async end
      end
  end.

Definition concurrency_of (options : Options) : jsnumber :=
  default PosInfinity (concurrency options).

Definition stopOnError_of (options : Options) : bool :=
  default true (stopOnError options).

(** [pMap(iterable, mapper, options)] up to the first suspension. *)
Definition pMap (i : impl) (input : iterable T) (mapper : callable T R)
    (options : Options) : State T R :=
  match validate i input mapper (concurrency_of options) with
  | Some r => thrown_by_executor T R r
  | None =>
      match get_iterator i input with
      | None => thrown_by_executor T R (TypeError InputIsIterable)
      | Some it =>
          runner_loop T R (concurrency_of options) 0 (declared T R it)
      end
  end.

(** The state after the events [evs]; [stackTrace] is the engine's rendering
    of the stack of an [Error] built by [AggregateError]. *)
Definition execution (stackTrace : jsstring → option jsstring) (i : impl)
    (input : iterable T) (mapper : callable T R) (options : Options)
    (evs : list event) : option (State T R) :=
  run i mapper (concurrency_of options) (stopOnError_of options) stackTrace
    (pMap i input mapper options) evs.

End Call.

End PMap.

(** * Properties *)

(** ** Weighted counts over the task table *)

Section Totals.

Context {A : Type} (w : A → nat).

Definition total (m : gmap nat A) : nat :=
  map_fold (λ _ x acc, w x + acc) 0 m.

Lemma total_empty : total ∅ = 0.
Proof. apply map_fold_empty. Qed.

Lemma total_insert_None m k x :
  m !! k = None → total (<[k:=x]> m) = total m + w x.
Proof.
  intros H. unfold total. rewrite map_fold_insert_L; [lia| |done].
  intros. lia.
Qed.

Lemma total_delete_Some m k y :
  m !! k = Some y → total (delete k m) + w y = total m.
Proof.
  intros H. rewrite <- (insert_delete_id m k y H) at 2.
  rewrite total_insert_None by apply lookup_delete_eq. done.
Qed.

Lemma total_delete_None m k : m !! k = None → total (delete k m) = total m.
Proof. intros H. by rewrite delete_id. Qed.

Lemma total_insert_Some m k x y :
  m !! k = Some y → total (<[k:=x]> m) + w y = total m + w x.
Proof.
  intros H. rewrite <- insert_delete_eq.
  rewrite total_insert_None by apply lookup_delete_eq.
  pose proof (total_delete_Some m k y H). lia.
Qed.

Lemma total_delete_le m k : total (delete k m) ≤ total m.
Proof.
  destruct (m !! k) eqn:E.
  - pose proof (total_delete_Some _ _ _ E). lia.
  - rewrite total_delete_None; done.
Qed.

Lemma total_insert_le m k x : total (<[k:=x]> m) ≤ total m + w x.
Proof.
  destruct (m !! k) eqn:E.
  - pose proof (total_insert_Some _ _ x _ E). lia.
  - rewrite total_insert_None; done.
Qed.

Lemma total_zero m k x : total m = 0 → m !! k = Some x → w x = 0.
Proof. intros H0 H. pose proof (total_delete_Some _ _ _ H). lia. Qed.

Lemma total_pos m : 0 < total m → ∃ k x, m !! k = Some x ∧ 0 < w x.
Proof.
  induction m as [|k x m Hk _ IH] using map_first_key_ind.
  - rewrite total_empty. lia.
  - rewrite total_insert_None by done. intros H.
    destruct (decide (0 < w x)).
    + exists k, x. by rewrite lookup_insert_eq.
    + destruct IH as (k' & x' & H1 & H2); [lia|].
      exists k', x'. split; [|done].
      rewrite lookup_insert_ne; [done|]. intros ->. congruence.
Qed.

End Totals.

Lemma size_filter_total {A} (p : A → bool) (m : gmap nat A) :
  size (filter (λ kv, p kv.2 = true) m) = total (λ x, if p x then 1 else 0) m.
Proof.
  induction m as [|k x m Hk IH] using map_ind.
  - by rewrite map_filter_empty, total_empty, map_size_empty.
  - rewrite total_insert_None by done.
    destruct (p x) eqn:E.
    + rewrite map_filter_insert_True by done.
      rewrite map_size_insert_None; [lia|].
      rewrite map_lookup_filter_None. by left.
    + rewrite map_filter_insert_False by (simpl; congruence).
      rewrite delete_id by done. lia.
Qed.

Lemma size_delete_Some {A} (m : gmap nat A) k y :
  m !! k = Some y → size m = S (size (delete k m)).
Proof.
  intros H. rewrite <- (insert_delete_id m k y H) at 1.
  by rewrite map_size_insert_None by apply lookup_delete_eq.
Qed.

(** ** The composite error *)

Section Composite.

Import AggregateError.

Variable stackTrace : jsstring → option jsstring.

Lemma blank_line_before_newline a b :
  blank_line (a ++ LF ++ b) = blank_line a.
Proof.
  induction a as [|c a IH]; [done|]. simpl.
  destruct (isLineTerminator c); [done|]. by destruct (isWhiteSpace c).
Qed.

(** [indentString] works line by line. *)
Lemma indent_from_newline bol inc pad a b :
  indent_from bol inc pad (a ++ LF ++ b) =
  indent_from bol inc pad a ++ LF ++ indent_from true inc pad b.
Proof.
  revert bol. induction a as [|c a IH]; intros bol.
  - simpl. by destruct bol, inc.
  - cbn [app indent_from]. rewrite IH.
    change (c :: a ++ LF ++ b) with ((c :: a) ++ LF ++ b).
    rewrite blank_line_before_newline. by rewrite <- !app_assoc.
Qed.

Lemma indentString_join (parts : list jsstring) count indent :
  indentString (join LF parts) count indent false =
  join LF ((λ p, indentString p count indent false) <$> parts).
Proof.
  destruct count as [|n].
  { assert ((λ p, indentString p 0 indent false) <$> parts = parts)
      as ->; [|done].
    induction parts as [|p parts IH]; [done|]. rewrite fmap_cons. by f_equal. }
  unfold indentString. cbn [bool_decide decide_rel].
  change (bool_decide (S n = 0)) with false. cbv iota.
  induction parts as [|p [|q parts] IH]; [done..|].
  change (join LF (p :: q :: parts)) with (p ++ LF ++ join LF (q :: parts)).
  rewrite indent_from_newline, IH. done.
Qed.

(** The message of the composite: a newline, then the descriptions of the
    failures in the order of the log, each indented by four spaces and
    separated by newlines. *)
Lemma message_of_create (errors : list ErrorLike) :
  agg_message (create stackTrace errors) =
  LF ++ join LF ((λ e, indentString (describe (normalize stackTrace e)) 4
                         (jsstr " ") false) <$> errors).
Proof.
  unfold create, render. simpl. f_equal.
  rewrite indentString_join. by rewrite <- !list_fmap_compose.
Qed.

(** A description on one non-blank line appears as it is after the four
    spaces. *)
Lemma indentString_one_line (d : jsstring) :
  Forall (λ c, isLineTerminator c = false) d → blank_line d = false →
  indentString d 4 (jsstr " ") false = jsstr "    " ++ d.
Proof.
  intros Hd Hb. unfold indentString. simpl.
  assert (∀ bol, indent_from bol false (jsstr "    ") d =
                 (if bol then jsstr "    " else []) ++ d) as H.
  { intros bol. revert bol Hb.
    induction Hd as [|c d Hc Hd IH]; intros bol Hb; [done|].
    cbn [indent_from]. rewrite Hb, Hc. simpl.
    destruct (blank_line d) eqn:E.
    - clear IH. assert (indent_from false false (jsstr "    ") d = d) as ->.
      { clear -Hd. induction Hd as [|c' d Hc' Hd IH]; [done|].
        cbn [indent_from]. simpl. rewrite Hc'. by rewrite IH. }
      by destruct bol.
    - rewrite (IH false eq_refl). by destruct bol. }
  by rewrite H.
Qed.

Lemma alloc_fresh (a : list JsError) (h : store) :
  h !! (alloc a h).1 = None ∧ (alloc a h).2 !! (alloc a h).1 = Some a ∧
  ∀ r, r ≠ (alloc a h).1 → (alloc a h).2 !! r = h !! r.
Proof.
  unfold alloc. simpl. split_and!.
  - apply not_elem_of_dom. apply is_fresh.
  - apply lookup_insert_eq.
  - intros r Hr. by apply lookup_insert_ne.
Qed.

Lemma normalize_message (e : ErrorLike) :
  message (normalize stackTrace e) = text e ∧
  ∀ e0, e = ErrObject e0 → normalize stackTrace e = e0.
Proof. destruct e; simpl; split; congruence. Qed.

(** C9. [new AggregateError(errors)] keeps, in the order of [errors], one
    [Error] per failure with the failure's message text (an [Error] is kept
    as it is).  [errors()] returns a new array with these values: whatever
    is done to the array it returned ([f] stands for any update in place),
    the array of the instance is unchanged and the next call of [errors()]
    returns the same values again, in another new array. *)
Theorem aggregate_error_normalizes_and_copies
    (input : list ErrorLike) (h : store) :
  ∃ a h1,
    construct stackTrace (Some input) h = Some (a, h1) ∧
    h1 !! errors_ref a = Some (normalize stackTrace <$> input) ∧
    Forall2 (λ i e, message e = text i ∧ ∀ e0, i = ErrObject e0 → e = e0)
      input (normalize stackTrace <$> input) ∧
    ∀ f : list JsError → list JsError,
      let copy1 := errors a h1 in
      let h2 := mutate copy1.1 f copy1.2 in
      let copy2 := errors a h2 in
      copy1.1 ≠ errors_ref a ∧
      copy1.2 !! copy1.1 = Some (normalize stackTrace <$> input) ∧
      h2 !! copy1.1 = Some (f (normalize stackTrace <$> input)) ∧
      h2 !! errors_ref a = Some (normalize stackTrace <$> input) ∧
      copy2.1 ≠ copy1.1 ∧
      copy2.2 !! copy2.1 = Some (normalize stackTrace <$> input).
Proof.
  unfold construct.
  destruct (alloc (_errors (create stackTrace input)) h) as [r h1] eqn:E.
  pose proof (alloc_fresh (_errors (create stackTrace input)) h)
    as (F1 & F2 & F3).
  rewrite E in F1, F2, F3. simpl in E, F1, F2, F3.
  exists {| errors_ref := r;
            instance_message := agg_message (create stackTrace input) |}, h1.
  split; [done|]. split; [done|]. split.
  { apply Forall2_fmap_r, Forall_Forall2_diag, Forall_forall.
    intros e _. apply normalize_message. }
  intros f. cbv zeta. unfold errors. cbn [errors_ref].
  rewrite (lookup_total_correct _ _ _ F2).
  change (normalize stackTrace <$> input) with (map (normalize stackTrace) input).
  set (v := map (normalize stackTrace) input) in *.
  pose proof (alloc_fresh v h1) as (G1 & G2 & G3).
  destruct (alloc v h1) as [r1 h2] eqn:E1. cbn [fst snd] in *.
  assert (r1 ≠ r) as Hne by (intros ->; congruence).
  assert (mutate r1 f h2 !! r = Some v) as Hr.
  { unfold mutate. rewrite lookup_alter_ne by done. by rewrite G3. }
  assert (mutate r1 f h2 !! r1 = Some (f v)) as Hr1.
  { unfold mutate. rewrite lookup_alter_eq. by rewrite G2. }
  rewrite (lookup_total_correct _ _ _ Hr).
  pose proof (alloc_fresh v (mutate r1 f h2)) as (K1 & K2 & K3).
  destruct (alloc v (mutate r1 f h2)) as [r2 h3] eqn:E2. cbn [fst snd] in *.
  split_and!; try done.
  intros ->. congruence.
Qed.

End Composite.

(** ** Counters against [concurrency] *)

Lemma count_le_mono m n c : count_le n c → m ≤ n → count_le m c.
Proof.
  destruct c as [| | |q]; simpl; try done.
  intros H Hmn. eapply Qle_trans; [|exact H].
  rewrite <- Zle_Qle. lia.
Qed.

Lemma safe_integer_inject q :
  isSafeInteger (Finite q) = true → (q == inject_Z (Qnum (Qred q)))%Q.
Proof.
  simpl. intros [Hd _]%andb_prop. apply bool_decide_eq_true in Hd.
  rewrite <- (Qred_correct q) at 1.
  destruct (Qred q) as [n d]. simpl in *. subst d. reflexivity.
Qed.

Lemma index_lt_succ i c :
  assertConcurrency c = true → index_lt i c = true → count_le (S i) c.
Proof.
  destruct c as [| | |q]; simpl; try done.
  unfold assertConcurrency. rewrite orb_false_r.
  intros [Hs _]%andb_prop Hlt. apply safe_integer_inject in Hs.
  apply negb_true_iff in Hlt.
  assert (inject_Z (Z.of_nat i) < q)%Q as Hi.
  { apply Qnot_le_lt. intros Hle. apply Qle_bool_iff in Hle. congruence. }
  rewrite Hs in Hi |- *. rewrite <- Zlt_Qlt in Hi. rewrite <- Zle_Qle. lia.
Qed.

Lemma count_le_zero c : assertConcurrency c = true → count_le 0 c.
Proof.
  destruct c as [| | |q]; simpl; try done.
  unfold assertConcurrency. intros [_ H]%andb_prop. simpl in H.
  apply Qle_bool_iff in H. eapply Qle_trans; [|exact H]. done.
Qed.

Import PMap.

(** ** Writes to a sparse array *)

Lemma array_set_lookup_eq {A} (a : list (option A)) k v :
  array_set a k v !! k = Some (Some v).
Proof.
  unfold array_set. case_bool_decide as H.
  - by apply list_lookup_insert_eq.
  - rewrite lookup_app_r by lia. rewrite lookup_app_r; rewrite length_replicate.
    + by replace (k - length a - (k - length a)) with 0 by lia.
    + lia.
Qed.

Lemma array_set_lookup_ne {A} (a : list (option A)) k v j :
  j ≠ k → j < length a → array_set a k v !! j = a !! j.
Proof.
  intros Hne Hj. unfold array_set. case_bool_decide as H.
  - by apply list_lookup_insert_ne.
  - by rewrite lookup_app_l.
Qed.

Lemma array_set_length {A} (a : list (option A)) k v :
  length (array_set a k v) = length a `max` S k.
Proof.
  unfold array_set. case_bool_decide as H.
  - rewrite length_insert. lia.
  - rewrite !length_app, length_replicate. simpl. lia.
Qed.

(** ** Reasoning by cases on a step *)

Ltac unfold_step :=
  unfold step, next_resumes, runner_resumes, element_settles, mapper_settles,
    catch, catch_in_catch, runner_loop, next, next_returns, next_throws,
    finish, start_task, reject, resolve, settle, iterator_next in *.

Ltac state_simpl :=
  cbn [with_result with_errors with_skippedIndexesMap with_isRejected
       with_isResolved with_isIterableDone with_resolvingCount
       with_currentIndex with_iterator with_settlements with_pulls with_loop
       with_tasks with_rejections with_invoked with_caught
       result errors skippedIndexesMap isRejected isResolved isIterableDone
       resolvingCount currentIndex iterator settlements pulls loop tasks
       rejections invoked caught negb andb orb fst snd] in *.

Ltac split_scrutinee x :=
  first [ is_var x; destruct x | destruct x eqn:? ].

Ltac step_case :=
  match goal with
  | H : context [match ?x with _ => _ end] |- _ => is_var x; destruct x
  | |- context [match ?x with _ => _ end] => is_var x; destruct x
  | H : context [match ?x with _ => _ end] |- _ => destruct x eqn:?
  | |- context [match ?x with _ => _ end] => destruct x eqn:?
  end.

Ltac step_cases :=
  unfold_step; state_simpl;
  repeat (first [ progress simplify_eq | step_case; state_simpl ]).

Ltac lookups :=
  repeat match goal with
  | H : context [<[_:=_]> _ !! _] |- _ => rewrite lookup_insert in H
  | H : context [delete _ _ !! _] |- _ => rewrite lookup_delete in H
  | |- context [<[_:=_]> _ !! _] => rewrite lookup_insert
  | |- context [delete _ _ !! _] => rewrite lookup_delete
  | H : context [decide ?P] |- _ => destruct (decide P)
  | |- context [decide ?P] => destruct (decide P)
  end; simplify_eq.

(** Rewrites the sizes of updated tables by cases on the key looked up. *)
Ltac sizes :=
  repeat match goal with
  | |- context [size (<[?k:=?x]> ?m)] =>
      let E := fresh "E" in
      destruct (m !! k) eqn:E;
      [rewrite (map_size_insert_Some k x m) by (rewrite E; eauto);
       pose proof (size_delete_Some m k _ E)
      |rewrite (map_size_insert_None k x m E)]
  | |- context [size (delete ?k ?m)] =>
      let E := fresh "E" in
      destruct (m !! k) eqn:E;
      [pose proof (size_delete_Some m k _ E);
       generalize dependent (size (delete k m)); intros
      |rewrite (map_size_delete_None k m E)]
  end.

(** The same for weighted totals. *)
Ltac totals :=
  repeat match goal with
  | |- context [total ?w (<[?k:=?x]> ?m)] =>
      let E := fresh "E" in
      destruct (m !! k) eqn:E;
      [pose proof (total_insert_Some w m k x _ E);
       generalize dependent (total w (<[k:=x]> m)); intros
      |rewrite (total_insert_None w m k x E)]
  | |- context [total ?w (delete ?k ?m)] =>
      let E := fresh "E" in
      destruct (m !! k) eqn:E;
      [pose proof (total_delete_Some w m k _ E);
       generalize dependent (total w (delete k m)); intros
      |rewrite (total_delete_None w m k E)]
  end.

Section Invariants.

Context {T R : Type}.
Variable implementation : impl.
Variable mapper : callable T R.
Variable concurrency : jsnumber.
Variable stopOnError : bool.
Variable stackTrace : jsstring → option jsstring.

Abbreviation step' :=
  (step implementation mapper concurrency stopOnError stackTrace).
Abbreviation run' :=
  (run implementation mapper concurrency stopOnError stackTrace).

(** An invariant of the steps holds along every run. *)
Lemma run_invariant (P : State T R → Prop) :
  (∀ s ev s', P s → step' s ev = Some s' → P s') →
  ∀ evs s s', P s → run' s evs = Some s' → P s'.
Proof.
  intros Hstep evs. induction evs as [|ev evs IH]; intros s s' HP Hrun.
  - by simplify_eq/=.
  - simpl in Hrun. destruct (step' s ev) as [s1|] eqn:E; [|done].
    eauto.
Qed.

Lemma run_app evs1 evs2 (s : State T R) :
  run' s (evs1 ++ evs2) = run' s evs1 ≫= λ s1, run' s1 evs2.
Proof.
  revert s. induction evs1 as [|ev evs IH]; intros s; simpl; [done|].
  destruct (step' s ev); simpl; [apply IH|done].
Qed.

(** *** The flags *)

Definition flags_ok (s : State T R) : Prop :=
  (isRejected s = true → isResolved s = true) ∧
  (isResolved s = true → isRejected s = true ∨ isIterableDone s = true) ∧
  (isResolved s = false → settlements s = []) ∧
  (isResolved s = true → settlements s ≠ []).

Lemma flags_step s ev s' : flags_ok s → step' s ev = Some s' → flags_ok s'.
Proof.
  intros (H1 & H2 & H3 & H4) Hs. destruct s. unfold flags_ok in *.
  step_cases.
  all: state_simpl; repeat split; intros; simplify_eq; auto.
  all: try (by destruct settlements0).
  all: try (by apply H4).
Qed.

(** *** Indexes *)

(** Indexes are handed out in increasing order. *)
Definition fresh_ok (s : State T R) : Prop :=
  ∀ k st, tasks s !! k = Some st → k < currentIndex s.

Lemma fresh_step s ev s' : fresh_ok s → step' s ev = Some s' → fresh_ok s'.
Proof.
  intros H Hs. destruct s. unfold fresh_ok in *.
  step_cases.
  all: state_simpl; intros k' st' Hk.
  all: lookups; try apply H in Hk; try lia.
  all: by eapply H.
Qed.

(** *** The order of the pulls *)

Definition finished (it : iteration T) : bool :=
  match it with Finished => true | _ => false end.

(** Once a pull has reported [done], the later ones do. *)
Fixpoint done_tail (l : list (caller * iteration T)) : Prop :=
  match l with
  | [] => True
  | p :: r =>
      (finished p.2 = true → Forall (λ q, finished q.2 = true) r) ∧
      done_tail r
  end.

Definition fifo (pulls : list (caller * iteration T))
    (iterator : list (pull T)) (isIterableDone : bool) : Prop :=
  done_tail pulls ∧
  (iterator ≠ [] → Forall (λ q, finished q.2 = false) pulls) ∧
  (isIterableDone = true →
     iterator = [] ∧ Forall (λ q, finished q.2 = true) pulls).

Definition fifo_ok (s : State T R) : Prop :=
  fifo (pulls s) (iterator s) (isIterableDone s).

Lemma done_tail_snoc_finished l c :
  done_tail l → done_tail (l ++ [(c, Finished)]).
Proof.
  induction l as [|p l IH]; simpl; [by auto|].
  intros [H1 H2]. split; [|auto].
  intros Hp. apply Forall_app. split; [auto|]. by repeat constructor.
Qed.

Lemma done_tail_snoc_other l p :
  Forall (λ q, finished q.2 = false) l → done_tail (l ++ [p]).
Proof.
  induction 1 as [|q l Hq Hl IH]; simpl; [by auto|].
  split; [congruence|done].
Qed.

Lemma fifo_push pulls it d c x it' :
  fifo pulls it d → iterator_next it = (x, it') →
  fifo (pulls ++ [(c, x)]) it' d.
Proof.
  intros (H1 & H2 & H3) Hn. unfold iterator_next in Hn.
  destruct it as [|[v|e] rest]; simplify_eq.
  - repeat split.
    + by apply done_tail_snoc_finished.
    + done.
    + apply Forall_app. split; [by apply H3|by repeat constructor].
  - assert (d = false) as -> by (destruct d; [by destruct H3|done]).
    repeat split; try done.
    + apply done_tail_snoc_other. by apply H2.
    + intros _. apply Forall_app. split; [by apply H2|by repeat constructor].
  - assert (d = false) as -> by (destruct d; [by destruct H3|done]).
    repeat split; try done.
    + apply done_tail_snoc_other. by apply H2.
    + intros _. apply Forall_app. split; [by apply H2|by repeat constructor].
Qed.

Lemma fifo_pop pulls it d c x :
  fifo ((c, x) :: pulls) it d → fifo pulls it d.
Proof.
  intros ([H0 H1] & H2 & H3). repeat split.
  - done.
  - intros H. apply H2 in H. by apply Forall_cons_1 in H as [_ ?].
  - by apply H3.
  - apply H3 in H as [_ H]. by apply Forall_cons_1 in H as [_ ?].
Qed.

Lemma fifo_pop_finished pulls it d c :
  fifo ((c, Finished) :: pulls) it d → fifo pulls it true.
Proof.
  intros ([H0 H1] & H2 & H3). repeat split.
  - done.
  - intros H. apply H2 in H. by apply Forall_cons_1 in H as [? _].
  - destruct it as [|p it]; [done|]. exfalso.
    assert (p :: it ≠ []) as Hne by done.
    apply H2 in Hne. by apply Forall_cons_1 in Hne as [? _].
  - by apply H0.
Qed.

Lemma fifo_step s ev s' : fifo_ok s → step' s ev = Some s' → fifo_ok s'.
Proof.
  intros H Hs. destruct s. unfold fifo_ok in *.
  unfold step, next_resumes, runner_resumes, element_settles, mapper_settles,
    catch, catch_in_catch, runner_loop, next, next_returns, next_throws,
    finish, start_task, reject, resolve, settle in *.
  state_simpl.
  repeat (first [ progress simplify_eq | step_case; state_simpl ]).
  all: eauto using fifo_push, fifo_pop, fifo_pop_finished.
Qed.

(** *** [resolvingCount] *)

Definition throws (p : pull T) : bool :=
  match p with Throws _ => true | _ => false end.

Definition fails (it : iteration T) : bool :=
  match it with Fails _ => true | _ => false end.

(** No pull has thrown and none will. *)
Definition throwless (s : State T R) : Prop :=
  Forall (λ p, throws p = false) (iterator s) ∧
  Forall (λ q, fails q.2 = false) (pulls s) ∧
  rejections s = [] ∧
  ∀ i e, loop s ≠ RunnerReady i (Some e).

(** [resolvingCount] is the number of tasks before their [next()], until
    the promise settles or, when errors are collected, until a pull throws
    ([quiet]: the source never throws). *)
Definition count_ok (quiet : Prop) (s : State T R) : Prop :=
  (quiet → throwless s) ∧
  (isResolved s = false →
   stopOnError = true ∨ errors s = [] ∨ quiet →
   resolvingCount s = Z.of_nat (size (tasks s))).

Lemma throwless_push pulls it c x it' :
  Forall (λ p, throws p = false) it →
  Forall (λ q : caller * iteration T, fails q.2 = false) pulls →
  iterator_next it = (x, it') →
  Forall (λ p, throws p = false) it' ∧
  Forall (λ q : caller * iteration T, fails q.2 = false) (pulls ++ [(c, x)]).
Proof.
  intros H1 H2 Hn. unfold iterator_next in Hn.
  destruct it as [|[v|e] rest]; simplify_eq.
  - split; [done|]. apply Forall_app. split; [done|by repeat constructor].
  - apply Forall_cons_1 in H1 as [_ H1].
    split; [done|]. apply Forall_app. split; [done|by repeat constructor].
  - by apply Forall_cons_1 in H1 as [? _].
Qed.

Lemma count_step quiet s ev s' :
  fresh_ok s → count_ok quiet s → step' s ev = Some s' → count_ok quiet s'.
Proof.
  intros Hf [H1 H2] Hs. destruct s. unfold count_ok, throwless, fresh_ok in *.
  unfold step, next_resumes, runner_resumes, element_settles, mapper_settles,
    catch, catch_in_catch, runner_loop, next, next_returns, next_throws,
    finish, start_task, reject, resolve, settle in *.
  state_simpl.
  repeat (first [ progress simplify_eq | step_case; state_simpl ]).
  all: state_simpl; split;
    [intros Hq; destruct (H1 Hq) as (Ha & Hb & Hc & Hd)
    |intros Hr Hp].
  all: try (apply Forall_cons_1 in Hb as [Hb0 Hb]; simpl in Hb0).
  all: try (subst; by rewrite lookup_nil in * ).
  all: try done.
  all: try (match goal with
            | E : iterator_next _ = _ |- context [_ ++ [(?c, _)]] =>
                destruct (throwless_push _ _ c _ _ Ha Hb E)
            end).
  all: try (repeat split; eauto; congruence).
  all: try (match type of H2 with
            | _ → _ → ?rc = Z.of_nat (size ?m) =>
                assert (rc = Z.of_nat (size m)) as ->
                  by (apply H2; [done|];
                      destruct Hp as [Hp|[Hp|Hp]]; auto;
                      by apply app_eq_nil in Hp as [_ ?])
            end).
  all: try (sizes; lookups;
            try match goal with
                | E : _ !! ?k = Some _ |- _ => apply Hf in E
                end; lia).
  destruct Hp as [Hp|[Hp|Hp]]; [done|by apply app_eq_nil in Hp as [_ ?]|].
  destruct (H1 Hp) as (_ & _ & -> & _). by rewrite lookup_nil in Heqo.
Qed.

(** *** The concurrency window *)

(** Continuations that may still start a mapper: every pending [next()],
    every task before its [next()], every task about to catch. *)
Definition chains (s : State T R) : nat :=
  length (pulls s) + size (tasks s) + length (rejections s).

Definition window_ok (s : State T R) : Prop :=
  match loop s with
  | RunnerAwaits i | RunnerReady i _ =>
      chains s ≤ S i ∧ index_lt i concurrency = true
  | RunnerExited => count_le (chains s) concurrency
  end.

Lemma window_step s ev s' :
  assertConcurrency concurrency = true →
  window_ok s → step' s ev = Some s' → window_ok s'.
Proof.
  intros Hc H Hs. destruct s. unfold window_ok, chains in *.
  step_cases.
  all: state_simpl.
  all: try match goal with
       | E : _ !! _ = Some _ |- context [length (delete _ ?l)] =>
           rewrite (length_delete l) by (rewrite E; eauto);
           apply lookup_lt_Some in E
       end.
  all: rewrite ?length_app; cbn [length] in *.
  all: try destruct H as [H Hi].
  all: try (pose proof (index_lt_succ _ _ Hc Hi)).
  all: try (split; [|done]).
  all: try (eapply count_le_mono; [eassumption|]).
  all: try (sizes; lookups; lia).
Qed.

(** *** The loop and its pull *)

Definition by_runner (q : caller * iteration T) : nat :=
  match q.1 with ByRunner => 1 | ByTask _ => 0 end.

(** The loop of the runners awaits one call of [next()] at a time. *)
Definition runner_ok (s : State T R) : Prop :=
  sum_list_with by_runner (pulls s) =
  match loop s with RunnerAwaits _ => 1 | _ => 0 end.

Lemma runner_step s ev s' :
  runner_ok s → step' s ev = Some s' → runner_ok s'.
Proof.
  intros H Hs. destruct s. unfold runner_ok in *.
  step_cases.
  all: state_simpl.
  all: rewrite ?sum_list_with_app; cbn [sum_list_with by_runner fst] in *.
  all: lia.
Qed.

(** *** Termination *)

Definition stage_weight (st : stage T R) : nat :=
  match st with AwaitElement _ => 8 | AwaitMapper _ => 7 end.

Definition item_weight (it : iteration T) : nat :=
  match it with Item _ => 11 | _ => 0 end.

Definition pull_weight (q : caller * iteration T) : nat :=
  match q.1 with
  | ByRunner => 3
  | ByTask false => 5
  | ByTask true => 2
  end + item_weight q.2.

Definition source_weight (p : pull T) : nat :=
  match p with Yields _ => 11 | Throws _ => 0 end.

Definition rejection_weight (r : bool * ErrorLike) : nat :=
  if r.1 then 1 else 4.

Definition loop_weight (s : State T R) : nat :=
  match loop s with
  | RunnerReady _ (Some _) => 1
  | RunnerReady _ None => if isIterableDone s || isRejected s then 1 else 5
  | _ => 0
  end.

(** A bound on the number of steps left. *)
Definition measure (s : State T R) : nat :=
  sum_list_with source_weight (iterator s) +
  sum_list_with pull_weight (pulls s) +
  total stage_weight (tasks s) +
  sum_list_with rejection_weight (rejections s) +
  loop_weight s.

Lemma source_weight_next it x it' :
  iterator_next it = (x, it') →
  sum_list_with source_weight it =
  sum_list_with source_weight it' + item_weight x.
Proof.
  unfold iterator_next. destruct it as [|[v|e] rest]; intros; simplify_eq/=; lia.
Qed.

Lemma sum_list_with_delete {A} (f : A → nat) l n x :
  l !! n = Some x →
  sum_list_with f l = sum_list_with f (delete n l) + f x.
Proof.
  revert n. induction l as [|y l IH]; intros [|n] H; simplify_eq/=; [lia|].
  rewrite (IH n H). lia.
Qed.

Lemma measure_step s ev s' :
  flags_ok s → step' s ev = Some s' → measure s' < measure s.
Proof.
  intros (_ & Hf & _ & _) Hs. destruct s.
  unfold measure, loop_weight in *.
  unfold step, next_resumes, runner_resumes, element_settles, mapper_settles,
    catch, catch_in_catch, runner_loop, next, next_returns, next_throws,
    finish, start_task, reject, resolve, settle in *.
  state_simpl.
  repeat (first [ progress simplify_eq | step_case; state_simpl ]).
  all: state_simpl.
  all: try match goal with
       | E : iterator_next _ = _ |- _ => rewrite (source_weight_next _ _ _ E)
       end.
  all: try match goal with
       | E : ?l !! ?n = Some _ |- context [sum_list_with _ (delete ?n ?l)] =>
           rewrite (sum_list_with_delete rejection_weight l n _ E)
       end.
  all: rewrite ?sum_list_with_app; cbn [sum_list_with].
  all: unfold pull_weight, rejection_weight, item_weight; cbn [fst snd].
  all: totals; lookups; cbn [stage_weight] in *.
  all: try lia.
  all: repeat match goal with
       | |- context [if ?b then _ else _] => destruct b eqn:?
       end; try lia.
  destruct Hf as [->| ->]; [done| |done]. by rewrite orb_true_r in *.
Qed.

(** A run is no longer than the measure of its first state. *)
Definition sound (s : State T R) : Prop :=
  flags_ok s ∧ fresh_ok s ∧ fifo_ok s ∧ runner_ok s.

Lemma sound_step s ev s' : sound s → step' s ev = Some s' → sound s'.
Proof.
  intros (H1 & H2 & H3 & H4) Hs.
  split_and!; eauto using flags_step, fresh_step, fifo_step, runner_step.
Qed.

Lemma sound_run evs s s' : sound s → run' s evs = Some s' → sound s'.
Proof. apply run_invariant, sound_step. Qed.

Lemma measure_run evs s s' :
  sound s → run' s evs = Some s' → measure s' + length evs ≤ measure s.
Proof.
  revert s. induction evs as [|ev evs IH]; intros s Hs Hrun.
  - simplify_eq/=. lia.
  - simpl in Hrun. destruct (step' s ev) as [s1|] eqn:E; [|done].
    pose proof (measure_step _ _ _ (proj1 Hs) E).
    pose proof (IH _ (sound_step _ _ _ Hs E) Hrun). simpl. lia.
Qed.

(** *** Progress *)

Definition loop_throws (l : runner) : nat :=
  match l with RunnerReady _ (Some _) => 1 | _ => 0 end.

(** Until the promise settles some continuation is suspended. *)
Definition live (s : State T R) : Prop :=
  isResolved s = false → 0 < chains s + loop_throws (loop s).

Lemma live_step quiet s ev s' :
  stopOnError = true ∨ quiet →
  runner_ok s → count_ok quiet s → live s → step' s ev = Some s' → live s'.
Proof.
  intros Hq Hl [_ Hc] H Hs. destruct s.
  unfold live, chains, loop_throws, runner_ok in *.
  unfold step, next_resumes, runner_resumes, element_settles, mapper_settles,
    catch, catch_in_catch, runner_loop, next, next_returns, next_throws,
    finish, start_task, reject, resolve, settle in *.
  state_simpl.
  repeat (first [ progress simplify_eq | step_case; state_simpl ]).
  all: state_simpl; intros Hr; try done.
  all: try match type of Hr with ?b = false => is_var b; subst b end.
  all: rewrite ?length_app; cbn [length sum_list_with by_runner fst] in *.
  all: try lia.
  all: try (sizes; lia).
  all: try (specialize (H eq_refl); lia).
  all: try (specialize (Hc eq_refl); rewrite Hc in *
              by (destruct Hq; auto)).
  all: try (destruct (size _); [by rewrite bool_decide_eq_true_2 in *|lia]).
Qed.

(** No continuation is suspended. *)
Definition terminal (s : State T R) : Prop := ∀ ev, step' s ev = None.

Lemma terminal_chains s : terminal s → chains s + loop_throws (loop s) = 0.
Proof.
  intros H. unfold chains.
  assert (pulls s = []) as ->.
  { specialize (H IteratorSettles). simpl in H.
    by destruct (pulls s) as [|[]]. }
  assert (rejections s = []) as ->.
  { specialize (H (NextRejects 0)). simpl in H.
    by destruct (rejections s) as [|[]]. }
  assert (tasks s = ∅) as ->.
  { apply map_eq. intros k. rewrite lookup_empty.
    destruct (tasks s !! k) as [[?|?]|] eqn:E; [| |done].
    - specialize (H (ElementSettles k)). simpl in H. by rewrite E in H.
    - specialize (H (MapperSettles k)). simpl in H. by rewrite E in H. }
  specialize (H RunnerResumes). simpl in H.
  rewrite map_size_empty. by destruct (loop s).
Qed.

Lemma terminal_resolved s : live s → terminal s → isResolved s = true.
Proof.
  intros Hl Ht. apply terminal_chains in Ht.
  destruct (isResolved s) eqn:E; [done|]. specialize (Hl E). lia.
Qed.

(** *** The invariant of a call *)

Definition invariant (quiet : Prop) (s : State T R) : Prop :=
  sound s ∧ count_ok quiet s ∧ (stopOnError = true ∨ quiet → live s).

Lemma invariant_step quiet s ev s' :
  invariant quiet s → step' s ev = Some s' → invariant quiet s'.
Proof.
  intros (Hs & Hc & Hl) Hstep. split_and!.
  - eauto using sound_step.
  - destruct Hs as (_ & ? & _). eauto using count_step.
  - intros Hq. destruct Hs as (_ & _ & _ & ?). eauto using live_step.
Qed.

Lemma invariant_run quiet evs s s' :
  invariant quiet s → run' s evs = Some s' → invariant quiet s'.
Proof. apply run_invariant, invariant_step. Qed.

(** The first state of a call whose checks passed. *)
Definition started (it : list (pull T)) : State T R :=
  runner_loop T R concurrency 0 (declared T R it).

Lemma started_invariant (quiet : Prop) it :
  index_lt 0 concurrency = true →
  (quiet → Forall (λ p, throws p = false) it) →
  invariant quiet (started it).
Proof.
  intros Hc Hq. unfold started, runner_loop, next, declared. rewrite Hc.
  state_simpl. destruct (iterator_next it) as [x it'] eqn:E. state_simpl.
  unfold invariant, sound, flags_ok, fresh_ok, fifo_ok, runner_ok, count_ok,
    live, throwless, chains. state_simpl.
  split_and!; try done.
  - by apply (fifo_push [] it false ByRunner x it').
  - intros H. destruct (throwless_push [] it ByRunner x it') as [? ?]; auto.
  - intros _ _. cbn. lia.
Qed.

(** *** What the caller holds *)

Definition resolved (o : settlement R) : bool :=
  match o with Rejected _ => false | _ => true end.

(** Once the promise is fulfilled no task is left and the source is
    exhausted. *)
Definition fulfilled_idle (s : State T R) : Prop :=
  ∀ o, promise s = Some o → resolved o = true →
       tasks s = ∅ ∧ isIterableDone s = true.

Lemma head_snoc {A} (l : list A) x :
  head (l ++ [x]) = match l with [] => Some x | y :: _ => Some y end.
Proof. by destruct l. Qed.

Lemma fulfilled_idle_step s ev s' :
  flags_ok s → fifo_ok s → count_ok False s →
  fulfilled_idle s → step' s ev = Some s' → fulfilled_idle s'.
Proof.
  intros (_ & _ & Hs0 & Hs1) Hfifo [_ Hn] Hi Hs.
  destruct s. unfold fifo_ok, fulfilled_idle, promise in *.
  unfold step, next_resumes, runner_resumes, element_settles, mapper_settles,
    catch, catch_in_catch, runner_loop, next, next_returns, next_throws,
    finish, start_task, reject, resolve, settle in *.
  state_simpl.
  repeat (first [ progress simplify_eq | step_case; state_simpl ]).
  all: state_simpl; intros o Hp Ho.
  all: rewrite ?head_snoc in Hp.
  all: try (destruct isResolved0).
  all: try (rewrite (Hs0 eq_refl) in * ); try (specialize (Hs1 eq_refl)).
  all: try (destruct settlements0; [done|]).
  all: simplify_eq/=.
  all: try (destruct (Hi _ eq_refl Ho) as [-> ->]).
  all: try done.
  all: try (by rewrite lookup_empty in * ).
  all: try (destruct Hfifo as (_ & _ & Hd); destruct (Hd eq_refl) as [_ Hall];
            by apply Forall_cons_1 in Hall as [? _]).
  all: try match goal with
       | H : bool_decide (?rc = 0%Z) && _ = true |- _ =>
           apply andb_prop in H as [H _]; apply bool_decide_eq_true in H
       end.
  all: try match type of Hn with
       | _ → _ → _ = Z.of_nat (size ?m) =>
           split; [|done]; apply map_size_empty_inv;
           assert (stopOnError = true ∨ errors0 = [] ∨ False) as Hq
             by (destruct stopOnError; [by left|right; left];
                 destruct errors0; [done|];
                 by rewrite bool_decide_eq_true_2 in * by (simpl; lia));
           pose proof (Hn eq_refl Hq); lia
       end.
Qed.

(** A settled promise keeps its state, and the array it was fulfilled
    with is not written to any more. *)
Lemma outcome_stable s ev s' :
  fifo_ok s → fulfilled_idle s → step' s ev = Some s' →
  promise s ≠ None →
  promise s' = promise s ∧ fulfilled s' = fulfilled s ∧
  rejected s' = rejected s.
Proof.
  intros Hfifo Hi Hs Hp.
  assert (promise s' = promise s ∧
          (resolved <$> promise s = Some true → result s' = result s))
    as [Hp' Hr].
  { destruct s. unfold fifo_ok, fulfilled_idle, promise in *.
    unfold step, next_resumes, runner_resumes, element_settles,
      mapper_settles, catch, catch_in_catch, runner_loop, next, next_returns,
      next_throws, finish, start_task, reject, resolve, settle in *.
    state_simpl.
    repeat (first [ progress simplify_eq | step_case; state_simpl ]).
    all: state_simpl; rewrite ?head_snoc.
    all: destruct settlements0 as [|o ?]; [done|]; cbn [head] in *.
    all: split; [done|]; intros Ho; simplify_eq/=; try done.
    all: destruct (Hi _ eq_refl Ho) as [-> ->].
    all: by rewrite lookup_empty in *. }
  unfold fulfilled, rejected. rewrite Hp'.
  split_and!; [done| |done].
  destruct (promise s) as [[| |]|]; try done.
  by rewrite Hr.
Qed.

(** *** Collected errors *)

(** When errors are collected and no pull throws: the log holds the
    failures in the order they were caught, and the promise settles once,
    when the source is exhausted and no task is left, with the composite of
    the log if it is not empty. *)
Definition collected (s : State T R) : Prop :=
  errors s = caught s ∧
  (isResolved s = true →
   tasks s = ∅ ∧ isIterableDone s = true ∧
   match caught s with
   | [] => ∃ o, settlements s = [o] ∧ resolved o = true
   | _ :: _ =>
       settlements s =
       [Rejected (Aggregate (AggregateError.create stackTrace (caught s)))]
   end).

Lemma collected_step s ev s' :
  stopOnError = false →
  flags_ok s → fifo_ok s → count_ok True s →
  collected s → step' s ev = Some s' → collected s'.
Proof.
  intros Hstop (_ & _ & Hs0 & Hs1) Hfifo [Hq Hn] [He Hi] Hs.
  destruct (Hq I) as (Ha & Hb & Hc & Hd). clear Hq.
  destruct s. unfold fifo_ok, collected in *.
  unfold step, next_resumes, runner_resumes, element_settles, mapper_settles,
    catch, catch_in_catch, runner_loop, next, next_returns, next_throws,
    finish, start_task, reject, resolve, settle in *.
  state_simpl.
  repeat (first [ progress simplify_eq | step_case; state_simpl ]).
  all: state_simpl.
  all: try (by rewrite lookup_nil in * ).
  all: try (by apply Forall_cons_1 in Hb as [? _]).
  all: try (exfalso; by eapply Hd).
  all: split; [done|]; intros Hres; try done.
  all: try (destruct (Hi Hres) as (-> & -> & Hset)).
  all: try (by rewrite lookup_empty in * ).
  all: try (destruct Hfifo as (_ & _ & Hf); destruct (Hf eq_refl) as [_ Hall];
            by apply Forall_cons_1 in Hall as [? _]).
  all: try done.
  all: try match goal with
       | H : bool_decide (?rc = 0%Z) && _ = true |- _ =>
           let H' := fresh in
           apply andb_prop in H as [H H']; apply bool_decide_eq_true in H;
           try apply negb_true_iff in H'; try subst isResolved0
       end.
  all: try rewrite (Hs0 eq_refl).
  all: try match type of Hn with
       | _ → _ → _ = Z.of_nat (size ?m) =>
           assert (m = ∅) as ->
             by (apply map_size_empty_inv;
                 pose proof (Hn ltac:(done) ltac:(auto)); lia)
       end.
  all: try (split_and!; [done..|]; by eexists).
Qed.

(** *** After the promise has settled *)

(** [isResolved] is never reset, and in index.ts no mapper is called once
    it is set. *)
Lemma guarded_step s ev s' :
  isResolved s = true → step' s ev = Some s' →
  isResolved s' = true ∧ (implementation = TS → invoked s' = invoked s).
Proof.
  intros Hr Hs. destruct s. simpl in Hr. subst.
  step_cases.
  all: state_simpl; split; try done.
Qed.

Definition settled_ok (s : State T R) : Prop :=
  invariant False s ∧ fulfilled_idle s.

Lemma settled_ok_step s ev s' :
  settled_ok s → step' s ev = Some s' → settled_ok s'.
Proof.
  intros [Hinv Hi] Hs. split; [by eapply invariant_step|].
  destruct Hinv as ((Hfl & _ & Hfifo & _) & Hc & _).
  by eapply fulfilled_idle_step.
Qed.

Lemma settled_ok_started it :
  index_lt 0 concurrency = true → settled_ok (started it).
Proof.
  intros Hc. split; [by apply started_invariant|].
  unfold started, runner_loop, next, declared. rewrite Hc. state_simpl.
  destruct (iterator_next it) as [x it']. by intros o.
Qed.

(** The outcome of a settled promise is the same after any further
    events. *)
Lemma settled_run evs s s' :
  settled_ok s → promise s ≠ None → run' s evs = Some s' →
  promise s' = promise s ∧ fulfilled s' = fulfilled s ∧
  rejected s' = rejected s ∧ (implementation = TS → invoked s' = invoked s).
Proof.
  revert s. induction evs as [|ev evs IH]; intros s Hok Hp Hrun.
  - by simplify_eq/=.
  - simpl in Hrun. destruct (step' s ev) as [s1|] eqn:E; [|done].
    pose proof Hok as [((Hfl & _ & Hfifo & _) & _ & _) Hi].
    destruct (outcome_stable _ _ _ Hfifo Hi E Hp) as (P1 & P2 & P3).
    assert (isResolved s = true) as Hr.
    { destruct Hfl as (_ & _ & H0 & _). destruct (isResolved s); [done|].
      unfold promise in Hp. by rewrite H0 in Hp. }
    destruct (guarded_step _ _ _ Hr E) as [_ P4].
    destruct (IH s1) as (Q1 & Q2 & Q3 & Q4);
      [by eapply settled_ok_step|by rewrite P1|done|].
    rewrite Q1, Q2, Q3. split_and!; try done.
    intros Hts. by rewrite Q4, P4.
Qed.

(** *** Collecting runs *)

Definition collecting_ok (s : State T R) : Prop :=
  invariant True s ∧ collected s.

Lemma collecting_ok_step s ev s' :
  stopOnError = false →
  collecting_ok s → step' s ev = Some s' → collecting_ok s'.
Proof.
  intros Hstop [Hinv Hcol] Hs. split; [by eapply invariant_step|].
  destruct Hinv as ((Hfl & _ & Hfifo & _) & Hc & _).
  by eapply collected_step.
Qed.

Lemma collecting_ok_started it :
  index_lt 0 concurrency = true →
  Forall (λ p, throws p = false) it →
  collecting_ok (started it).
Proof.
  intros Hc Hit. split; [by apply started_invariant|].
  unfold started, runner_loop, next, declared. rewrite Hc. state_simpl.
  destruct (iterator_next it) as [x it']. by split.
Qed.

Lemma collecting_run evs it s :
  stopOnError = false →
  index_lt 0 concurrency = true →
  Forall (λ p, throws p = false) it →
  run' (started it) evs = Some s →
  length evs ≤ measure (started it) ∧
  errors s = caught s ∧
  (terminal s → promise s ≠ None) ∧
  (caught s ≠ [] → promise s ≠ None →
   tasks s = ∅ ∧ isIterableDone s = true ∧
   settlements s =
   [Rejected (Aggregate (AggregateError.create stackTrace (caught s)))]).
Proof.
  intros Hstop Hc Hit Hrun.
  pose proof (collecting_ok_started it Hc Hit) as H0.
  assert (collecting_ok s) as [Hinv [Herr Hcol]].
  { revert Hrun. apply run_invariant; [|done].
    intros ???. by apply collecting_ok_step. }
  destruct Hinv as (Hsound & _ & Hlive).
  assert (promise s ≠ None → isResolved s = true) as Hres.
  { destruct Hsound as ((_ & _ & Hn & _) & _). intros Hp.
    destruct (isResolved s); [done|]. unfold promise in Hp.
    by rewrite Hn in Hp. }
  split_and!.
  - destruct H0 as [(Hs0 & _) _].
    pose proof (measure_run _ _ _ Hs0 Hrun). lia.
  - done.
  - intros Ht. assert (isResolved s = true) as Hr
      by (eapply terminal_resolved; [apply Hlive; by right|done]).
    destruct Hsound as ((_ & _ & _ & Hn) & _). unfold promise.
    specialize (Hn Hr). by destruct (settlements s).
  - intros Hne Hp. destruct (Hcol (Hres Hp)) as (? & ? & Hset).
    by destruct (caught s).
Qed.

End Invariants.

(** ** Runs without failure *)

Section FailureFree.

Context {T R : Type}.
Variable implementation : impl.
Variable f : T → nat → outcome (mapped R).
Variable concurrency : jsnumber.
Variable stopOnError : bool.
Variable stackTrace : jsstring → option jsstring.

(** The elements of the source, in source order, and what the mapper
    returns for each of them at its position. *)
Variable items : list T.
Variable outs : list (mapped R).

Definition mapped_to : Prop :=
  length outs = length items ∧
  ∀ k x, items !! k = Some x → ∃ v, outs !! k = Some v ∧ f x k = Fulfils v.

Hypothesis Hmapped : mapped_to.

Abbreviation step0 :=
  (step implementation (Function f) concurrency stopOnError stackTrace).
Abbreviation run0 :=
  (run implementation (Function f) concurrency stopOnError stackTrace).

Definition pulled_element (q : caller * iteration T) : option T :=
  match q.2 with Item (Fulfils x) => Some x | _ => None end.

Definition source_element (p : pull T) : option T :=
  match p with Yields (Fulfils x) => Some x | _ => None end.

Definition clean_item (q : caller * iteration T) : bool :=
  match q.2 with Item (Fulfils _) | Finished => true | _ => false end.

Definition clean_pull (p : pull T) : bool :=
  match p with Yields (Fulfils _) => true | _ => false end.

(** The elements not yet handed to a task are the elements of the source
    from [currentIndex] on. *)
Definition unpulled (pulls : list (caller * iteration T))
    (iterator : list (pull T)) (currentIndex : nat) : Prop :=
  Forall (λ p, clean_pull p = true) iterator ∧
  Forall (λ q, clean_item q = true) pulls ∧
  omap pulled_element pulls ++ omap source_element iterator =
    drop currentIndex items.

Lemma unpulled_push pulls it n c x it' :
  unpulled pulls it n → iterator_next it = (x, it') →
  unpulled (pulls ++ [(c, x)]) it' n.
Proof.
  intros (H1 & H2 & H3) Hn. unfold iterator_next in Hn.
  destruct it as [|[[y|e]|e] rest]; simplify_eq.
  - split_and!; [done| |].
    + apply Forall_app. split; [done|by repeat constructor].
    + rewrite omap_app. simpl in *. by rewrite !app_nil_r in *.
  - apply Forall_cons_1 in H1 as [_ H1]. split_and!; [done| |].
    + apply Forall_app. split; [done|by repeat constructor].
    + rewrite omap_app, <- app_assoc. done.
  - by apply Forall_cons_1 in H1 as [? _].
  - by apply Forall_cons_1 in H1 as [? _].
Qed.

Lemma unpulled_pop_item pulls it n c v :
  unpulled ((c, Item v) :: pulls) it n →
  ∃ x, v = Fulfils x ∧ items !! n = Some x ∧ unpulled pulls it (S n).
Proof.
  intros (H1 & H2 & H3). apply Forall_cons_1 in H2 as [Hv H2].
  destruct v as [x|e]; [|done]. exists x. split; [done|].
  simpl in H3.
  assert (items !! n = Some x) as Hx.
  { pose proof (lookup_drop items n 0) as Hd. rewrite Nat.add_0_r in Hd.
    by rewrite <- Hd, <- H3. }
  split; [done|]. split_and!; [done..|].
  replace (S n) with (n + 1) by lia. by rewrite <- drop_drop, <- H3.
Qed.

Lemma unpulled_pop_finished pulls it n c d :
  fifo ((c, Finished) :: pulls) it d →
  unpulled ((c, Finished) :: pulls) it n →
  unpulled pulls it (S n) ∧ length items ≤ n.
Proof.
  intros ([Hd _] & Hi & _) (H1 & H2 & H3).
  apply Forall_cons_1 in H2 as [_ H2].
  assert (it = []) as ->.
  { destruct it as [|p it]; [done|]. exfalso.
    assert (p :: it ≠ []) as Hne by done.
    apply Hi in Hne. by apply Forall_cons_1 in Hne as [? _]. }
  assert (omap pulled_element pulls = []) as Hp.
  { specialize (Hd eq_refl). clear -Hd.
    induction Hd as [|[c' x] l Hx Hl IH]; [done|].
    simpl in *. unfold pulled_element at 1. simpl. by destruct x. }
  cbn [omap list_omap] in H3. unfold pulled_element at 1 in H3.
  cbn [snd] in H3. rewrite Hp in H3. simpl in H3.
  symmetry in H3. apply drop_nil_inv in H3.
  split; [|done]. split_and!; [done..|].
  simpl. rewrite Hp. simpl. symmetry. apply drop_ge. lia.
Qed.

Lemma unpulled_no_fail pulls it n c e :
  ¬ unpulled ((c, Fails e) :: pulls) it n.
Proof. intros (_ & H & _). by apply Forall_cons_1 in H as [? _]. Qed.

(** Nothing has failed, and every task holds the element of its index. *)
Definition clean (s : State T R) : Prop :=
  unpulled (pulls s) (iterator s) (currentIndex s) ∧
  (∀ k st, tasks s !! k = Some st →
     ∃ x, items !! k = Some x ∧
          (st = AwaitElement (Fulfils x) ∨ st = AwaitMapper (f x k))) ∧
  rejections s = [] ∧ caught s = [] ∧ errors s = [] ∧
  isRejected s = false ∧ (∀ i e, loop s ≠ RunnerReady i (Some e)).

Lemma clean_step s ev s' :
  fifo_ok s → clean s → step0 s ev = Some s' → clean s'.
Proof.
  intros Hfifo (Hu & Ht & Hr & Hc & He & Hj & Hl) Hs. destruct s.
  unfold clean, fifo_ok in *.
  unfold step, next_resumes, runner_resumes, element_settles, mapper_settles,
    catch, catch_in_catch, runner_loop, next, next_returns, next_throws,
    finish, start_task, reject, resolve, settle, call_mapper in *.
  state_simpl.
  repeat (first [ progress simplify_eq | step_case; state_simpl ]).
  all: state_simpl.
  all: try (by apply unpulled_no_fail in Hu).
  all: try (destruct (unpulled_pop_item _ _ _ _ _ Hu) as (x & -> & Hx & Hu')).
  all: try (destruct (unpulled_pop_finished _ _ _ _ _ Hfifo Hu)
              as [Hu' Hlen]).
  all: try match goal with
       | E : _ !! _ = Some _ |- _ =>
           destruct (Ht _ _ E) as (x & Hx & [?|?]); simplify_eq;
           destruct (proj2 Hmapped _ _ Hx) as (v & Hv & Hf)
       end.
  all: try congruence.
  all: split_and!; try done; eauto using unpulled_push.
  all: try (intros k' st' Hk; lookups; eauto).
  all: try (exfalso; by destruct stopOnError).
  all: try (exfalso; by eapply Hl).
Qed.

(** Once the promise is resolved no task is left. *)
Definition idle (s : State T R) : Prop :=
  isResolved s = true → tasks s = ∅ ∧ isIterableDone s = true.

Lemma idle_step quiet s ev s' :
  flags_ok s → fifo_ok s → count_ok stopOnError quiet s → clean s →
  idle s → step0 s ev = Some s' → idle s'.
Proof.
  intros (_ & Hf & _) Hfifo [_ Hn] (Hu & Ht & Hr & Hc & He & Hj & Hl) Hi Hs.
  destruct s. unfold clean, fifo_ok, idle in *.
  unfold step, next_resumes, runner_resumes, element_settles, mapper_settles,
    catch, catch_in_catch, runner_loop, next, next_returns, next_throws,
    finish, start_task, reject, resolve, settle, call_mapper in *.
  state_simpl.
  repeat (first [ progress simplify_eq | step_case; state_simpl ]).
  all: state_simpl; intros Hres; try done.
  all: try (destruct (Hi Hres) as [-> ->]).
  all: try (by rewrite lookup_empty in * ).
  all: try (destruct Hfifo as (_ & _ & Hd); destruct (Hd eq_refl) as [_ Hall];
            by apply Forall_cons_1 in Hall as [? _]).
  all: try (exfalso; by destruct stopOnError).
  all: try match goal with
       | H : bool_decide (?rc = 0%Z) && _ = true |- _ =>
           let H' := fresh in
           apply andb_prop in H as [H H']; apply bool_decide_eq_true in H;
           apply negb_true_iff in H'; rewrite Hn in H by auto
       end.
  all: try (split; [|done]; apply map_size_empty_inv; lia).
  all: try done.
  all: try (exfalso; by eapply Hl).
  all: try match goal with
       | E : _ !! _ = Some _ |- _ =>
           destruct (Ht _ _ E) as (x & Hx & [?|?]); simplify_eq;
           destruct (proj2 Hmapped _ _ Hx) as (v & Hv & Hf'); congruence
       end.
Qed.

(** What has been written: a slot is filled when its task is over, with the
    value the mapper returned for its element, and is marked as skipped
    when that value is [pMapSkip]. *)
Definition written (s : State T R) : Prop :=
  length (result s) ≤ length items ∧
  (∀ k v, outs !! k = Some v → k < currentIndex s → tasks s !! k = None →
     result s !! k = Some (Some v)) ∧
  (∀ k v, skippedIndexesMap s !! k = Some v → outs !! k = Some pMapSkip) ∧
  (∀ k, outs !! k = Some pMapSkip → k < currentIndex s →
     tasks s !! k = None → skippedIndexesMap s !! k = Some pMapSkip).

Lemma written_step s ev s' :
  fifo_ok s → fresh_ok s → clean s → idle s →
  written s → step0 s ev = Some s' → written s'.
Proof.
  intros Hfifo Hfresh (Hu & Ht & Hr & Hc & He & Hj & Hl) Hi
    (W1 & W2 & W3 & W4) Hs.
  destruct s. unfold clean, fifo_ok, idle, written, fresh_ok in *.
  unfold step, next_resumes, runner_resumes, element_settles, mapper_settles,
    catch, catch_in_catch, runner_loop, next, next_returns, next_throws,
    finish, start_task, reject, resolve, settle, call_mapper in *.
  state_simpl.
  repeat (first [ progress simplify_eq | step_case; state_simpl ]).
  all: state_simpl.
  all: try (by apply unpulled_no_fail in Hu).
  all: try (exfalso; by eapply Hl).
  all: try (destruct (Hi eq_refl) as [-> ->]).
  all: try (by rewrite lookup_empty in * ).
  all: try (destruct Hfifo as (_ & _ & Hd); destruct (Hd eq_refl) as [_ Hall];
            by apply Forall_cons_1 in Hall as [? _]).
  all: try (destruct (unpulled_pop_finished _ _ _ _ _ Hfifo Hu)
              as [Hu' Hlen]).
  all: try match goal with
       | E : _ !! _ = Some _ |- _ =>
           destruct (Ht _ _ E) as (x & Hx & [?|?]); simplify_eq;
           destruct (proj2 Hmapped _ _ Hx) as (v & Hv & Hf');
           pose proof (lookup_lt_Some _ _ _ Hx)
       end.
  all: try congruence.
  all: pose proof (proj1 Hmapped) as Hlen'.
  all: split_and!; try done.
  all: try (rewrite array_set_length; lia).
  all: try (intros k' v' Ho Hk Hn; pose proof (lookup_lt_Some _ _ _ Ho);
            lookups;
            first
              [ by (apply W2; [done|lia|done])
              | by (rewrite array_set_lookup_eq; congruence)
              | by (rewrite array_set_lookup_ne;
                    [apply W2; [done|lia|done]
                    |done
                    |eapply lookup_lt_Some; apply W2; [done|lia|done]]) ]).
  all: try (intros k' Ho Hk Hn; pose proof (lookup_lt_Some _ _ _ Ho);
            lookups; try congruence; apply W4; [done|lia|done]).
  all: try (intros k' w Hk; lookups; eauto).
  all: try congruence.
Qed.

(** *** The resolved value *)

Lemma pure_from_empty n (l : list (option (mapped R))) : pure_from n l ∅ = l.
Proof.
  revert n. induction l as [|x l IH]; intros n; simpl; [done|].
  by rewrite lookup_empty, IH.
Qed.

Lemma pure_from_without_skipped n (values : list (mapped R)) skipped :
  (∀ k v, values !! k = Some v →
     skipped !! (n + k) = Some pMapSkip ↔ v = pMapSkip) →
  pure_from n (Some <$> values) skipped = Some <$> without_skipped values.
Proof.
  revert n. induction values as [|v values IH]; intros n H; [done|].
  rewrite fmap_cons. cbn [pure_from without_skipped].
  pose proof (H 0 v eq_refl) as H0. rewrite Nat.add_0_r in H0.
  assert (pure_from (S n) (Some <$> values) skipped =
          Some <$> without_skipped values) as Hrest.
  { apply IH. intros k w Hk. rewrite <- (H (S k) w Hk).
    by replace (S n + k) with (n + S k) by lia. }
  destruct v as [|r].
  - by rewrite (proj2 H0 eq_refl).
  - destruct (skipped !! n) as [[|r']|] eqn:E.
    + by pose proof (proj1 H0 eq_refl).
    + by rewrite fmap_cons, Hrest.
    + by rewrite fmap_cons, Hrest.
Qed.

(** The final value: [map] then remove the skipped. *)
Definition expected : list (option (mapped R)) :=
  Some <$> without_skipped outs.

Lemma resolved_value (result : list (option (mapped R))) skipped n :
  length items ≤ n →
  length result ≤ length items →
  (∀ k v, outs !! k = Some v → k < n → result !! k = Some (Some v)) →
  (∀ k v, skipped !! k = Some v → outs !! k = Some pMapSkip) →
  (∀ k, outs !! k = Some pMapSkip → k < n → skipped !! k = Some pMapSkip) →
  (if bool_decide (size skipped = 0) then result
   else pure_from 0 result skipped) = expected.
Proof.
  intros Hn Hlen W2 W3 W4. destruct Hmapped as [Hl _].
  assert (result = Some <$> outs) as ->.
  { apply list_eq. intros k. rewrite list_lookup_fmap.
    destruct (outs !! k) as [v|] eqn:E; simpl.
    - apply W2; [done|]. apply lookup_lt_Some in E. lia.
    - apply lookup_ge_None in E. apply lookup_ge_None. lia. }
  assert (pure_from 0 (Some <$> outs) skipped = expected) as Hp.
  { apply pure_from_without_skipped. intros k v Hk. simpl. split.
    - intros Hs. apply W3 in Hs. congruence.
    - intros ->. apply W4; [done|]. apply lookup_lt_Some in Hk. lia. }
  case_bool_decide as Hsz; [|done].
  apply map_size_empty_inv in Hsz. subst skipped.
  by rewrite pure_from_empty in Hp.
Qed.

(** Once resolved, the promise holds the expected value. *)
Definition answered (s : State T R) : Prop :=
  isResolved s = true → fulfilled s = Some expected.

Lemma answered_step quiet s ev s' :
  flags_ok s → fifo_ok s → count_ok stopOnError quiet s → clean s →
  idle s → written s → answered s → step0 s ev = Some s' → answered s'.
Proof.
  intros (_ & _ & Hs0 & Hs1) Hfifo [_ Hn] (Hu & Ht & Hr & Hc & He & Hj & Hl)
    Hi (W1 & W2 & W3 & W4) Ha Hs.
  destruct s. unfold clean, fifo_ok, idle, answered in *.
  unfold step, next_resumes, runner_resumes, element_settles, mapper_settles,
    catch, catch_in_catch, runner_loop, next, next_returns, next_throws,
    finish, start_task, reject, resolve, settle, call_mapper in *.
  state_simpl.
  repeat (first [ progress simplify_eq | step_case; state_simpl ]).
  all: state_simpl; intros Hres; try done.
  all: try (by apply unpulled_no_fail in Hu).
  all: try (exfalso; by eapply Hl).
  all: try (exfalso; by destruct stopOnError).
  all: try (destruct (Hi Hres) as [-> ->]).
  all: try (by rewrite lookup_empty in * ).
  all: try (by apply Ha).
  all: try (specialize (Ha eq_refl); specialize (Hs1 eq_refl);
            unfold fulfilled, promise in *; state_simpl;
            by destruct settlements0).
  all: try match goal with
       | E : _ !! _ = Some _ |- _ =>
           destruct (Ht _ _ E) as (x & Hx & [?|?]); simplify_eq;
           destruct (proj2 Hmapped _ _ Hx) as (v & Hv & Hf'); congruence
       end.
  all: try destruct (unpulled_pop_finished _ _ _ _ _ Hfifo Hu) as [_ Hlen].
  all: match goal with
       | H : bool_decide (?rc = 0%Z) && _ = true |- _ =>
           let H' := fresh in
           apply andb_prop in H as [H H']; apply bool_decide_eq_true in H;
           try apply negb_true_iff in H'
       end.
  all: match type of Hn with
       | _ → _ → _ = Z.of_nat (size ?m) =>
           assert (m = ∅) as ->
             by (apply map_size_empty_inv;
                 pose proof (Hn ltac:(done) ltac:(auto)); lia)
       end.
  all: rewrite Hs0 by done; unfold fulfilled, promise; state_simpl.
  all: cbn [head app]; f_equal.
  all: match goal with
       | H : bool_decide (size ?sk = 0) = _ |- _ =>
           pose proof (resolved_value result0 sk currentIndex0 Hlen W1) as Hv;
           rewrite H in Hv; apply Hv;
           [intros; apply W2; [assumption|assumption|apply lookup_empty]
           |done
           |intros; apply W4; [assumption|assumption|apply lookup_empty]]
       end.
Qed.

(** *** The invariant of a run without failure *)

Definition good (s : State T R) : Prop :=
  invariant stopOnError True s ∧ clean s ∧ idle s ∧ written s ∧ answered s.

Lemma good_step s ev s' : good s → step0 s ev = Some s' → good s'.
Proof.
  intros (Hinv & Hc & Hi & Hw & Ha) Hs.
  pose proof Hinv as ((Hfl & Hfr & Hfi & Hru) & Hco & Hli).
  split_and!.
  - by eapply invariant_step.
  - by eapply clean_step.
  - by eapply idle_step.
  - by eapply written_step.
  - by eapply answered_step.
Qed.

(** The source of a run without failure: every pull yields an element that
    resolves. *)
Definition source_of : list (pull T) := (λ x, Yields (Fulfils x)) <$> items.

Abbreviation start0 := (started (T:=T) (R:=R) concurrency source_of).

Lemma source_of_throwless : Forall (λ p : pull T, throws p = false) source_of.
Proof. unfold source_of. apply Forall_fmap. by apply Forall_true. Qed.

Lemma source_elements (l : list T) :
  omap source_element ((λ x, Yields (Fulfils x)) <$> l) = l.
Proof. induction l as [|x l IH]; [done|]. simpl. f_equal. exact IH. Qed.

Lemma source_of_unpulled : unpulled [] source_of 0.
Proof.
  unfold unpulled, source_of. split_and!.
  - apply Forall_fmap. by apply Forall_true.
  - done.
  - simpl. apply source_elements.
Qed.

Lemma good_start :
  index_lt 0 concurrency = true → good (start0).
Proof.
  intros Hc. split.
  { apply started_invariant; [done|]. intros _. apply source_of_throwless. }
  pose proof source_of_unpulled as Hu.
  unfold started, runner_loop, next, declared. rewrite Hc. state_simpl.
  destruct (iterator_next source_of) as [x it'] eqn:E. state_simpl.
  unfold clean, idle, written, answered. state_simpl.
  split_and!; try done.
  - by apply (unpulled_push [] source_of 0 ByRunner x it').
  - simpl. lia.
  - intros. lia.
  - intros. lia.
Qed.

Lemma good_run evs s :
  index_lt 0 concurrency = true →
  run0 (start0) evs = Some s → good s.
Proof.
  intros Hc. apply run_invariant; [apply good_step|by apply good_start].
Qed.

Lemma measure_start :
  index_lt 0 concurrency = true →
  measure (start0) = 11 * length items + 3.
Proof.
  intros Hc. unfold started, runner_loop, next, declared. rewrite Hc.
  state_simpl. unfold source_of.
  assert (∀ l : list T,
            sum_list_with source_weight ((λ x, Yields (Fulfils x)) <$> l) =
            11 * length l) as Hsum.
  { induction l as [|y l IH]; [done|]. rewrite fmap_cons. simpl in *. lia. }
  generalize items. intros [|x l]; simpl.
  - unfold measure, loop_weight. simpl. by rewrite total_empty.
  - unfold measure, loop_weight. simpl. rewrite total_empty, Hsum. lia.
Qed.

(** Every run is finite, the promise is never rejected nor resolved with
    another value, and when nothing is left to run it is resolved. *)
Lemma failure_free evs s :
  index_lt 0 concurrency = true →
  run0 (start0) evs = Some s →
  length evs ≤ 11 * length items + 3 ∧
  (promise s ≠ None → fulfilled s = Some expected) ∧
  (terminal implementation (Function f) concurrency stopOnError stackTrace s →
   fulfilled s = Some expected).
Proof.
  intros Hc Hrun.
  pose proof (good_run _ _ Hc Hrun) as (Hinv & _ & _ & _ & Ha).
  destruct Hinv as ((Hfl & Hrest) & Hco & Hli).
  split_and!.
  - rewrite <- (measure_start Hc).
    assert (sound (start0)) as Hs0.
    { destruct (good_start Hc) as ((? & _) & _). done. }
    pose proof (measure_run _ _ _ _ _ _ _ _ Hs0 Hrun). lia.
  - intros Hp. apply Ha. destruct Hfl as (_ & _ & H0 & _).
    destruct (isResolved s); [done|]. unfold promise in Hp.
    by rewrite H0 in Hp.
  - intros Ht. apply Ha. eapply terminal_resolved; [|done]. by apply Hli; right.
Qed.

End FailureFree.

(** ** Calls of [pMap] *)

Section Calls.

Context {T R : Type}.
Variable stackTrace : jsstring → option jsstring.

Implicit Types (i : impl) (input : iterable T) (mapper : callable T R).
Implicit Types (options : Options) (s : State T R).
Implicit Types (f : T → nat → outcome (mapped R)).
Implicit Types (items : list T) (outs : list (mapped R)).

(** A call either fails its checks, or starts the loop of the runners over
    the iterator of its input. *)
Lemma pMap_cases i input mapper options :
  (∃ c, pMap i input mapper options = thrown_by_executor T R (PMapError c) ∨
        pMap i input mapper options = thrown_by_executor T R (TypeError c)) ∨
  (∃ it f,
     get_iterator i input = Some it ∧ mapper = Function f ∧
     assertConcurrency (concurrency_of options) = true ∧
     pMap i input mapper options = started (concurrency_of options) it).
Proof.
  unfold pMap, validate, get_iterator, started.
  destruct i, input as [[sync|]|[sync|] [async|]], mapper as [|f];
    destruct (assertConcurrency (concurrency_of options)) eqn:E;
    eauto 10.
Qed.

Lemma thrown_terminal i mapper c b r :
  terminal i mapper c b stackTrace (thrown_by_executor T R r).
Proof. by intros []. Qed.

Lemma valid_first_iteration c :
  assertConcurrency c = true → index_lt 0 c = true.
Proof.
  destruct c as [| | |q]; simpl; try done.
  unfold assertConcurrency. intros [_ H]%andb_prop. simpl in H.
  apply Qle_bool_iff in H. apply negb_true_iff.
  destruct (Qle_bool q (inject_Z 0)) eqn:E; [|done].
  apply Qle_bool_iff in E. exfalso.
  assert (1 <= 0)%Q as H' by (eapply Qle_trans; eauto). by apply H'.
Qed.

Lemma execution_cases i input mapper options evs s :
  execution stackTrace i input mapper options evs = Some s →
  (evs = [] ∧
   ∃ c, s = thrown_by_executor T R (PMapError c) ∨
        s = thrown_by_executor T R (TypeError c)) ∨
  (∃ it f,
     get_iterator i input = Some it ∧ mapper = Function f ∧
     assertConcurrency (concurrency_of options) = true ∧
     run i mapper (concurrency_of options) (stopOnError_of options) stackTrace
       (started (concurrency_of options) it) evs = Some s).
Proof.
  unfold execution. intros Hrun.
  destruct (pMap_cases i input mapper options)
    as [[c Hc]|(it & f & H1 & H2 & H3 & H4)].
  - left.
    assert (∃ r, pMap i input mapper options = thrown_by_executor T R r)
      as [r Hr] by (destruct Hc; eauto).
    rewrite Hr in Hrun.
    destruct evs as [|ev evs]; simpl in Hrun.
    + simplify_eq. split; [done|]. exists c. by rewrite <- Hr.
    + by rewrite thrown_terminal in Hrun.
  - right. exists it, f. by rewrite <- H4.
Qed.

Lemma started_window c it :
  assertConcurrency c = true → window_ok c (started (T:=T) (R:=R) c it).
Proof.
  intros Hc. pose proof (valid_first_iteration c Hc) as H0.
  unfold started, runner_loop, next, declared. rewrite H0. state_simpl.
  destruct (iterator_next it) as [x it']. state_simpl.
  unfold window_ok, chains. state_simpl. split; [|done].
  rewrite map_size_empty. simpl. lia.
Qed.

Lemma window_chains c s :
  assertConcurrency c = true → window_ok c s → count_le (chains s) c.
Proof.
  intros Hc. unfold window_ok.
  destruct (loop s); [| |done].
  all: intros [H1 H2]; eapply count_le_mono; eauto using index_lt_succ.
Qed.

Lemma inFlight_chains s : inFlight s ≤ chains s.
Proof.
  unfold inFlight, chains.
  pose proof (map_size_filter (λ kv, mapping T R kv.2 = true) (tasks s)). lia.
Qed.

(** C7. At every state of an execution of [pMap] with a valid [concurrency]
    (a safe integer from 1 up, or [Infinity]), whatever the source, the
    mapper, the policy and the order of the events, the number of mapper
    calls that have started and not settled is at most [concurrency]. *)
Theorem in_flight_at_most_concurrency i input mapper options evs s :
  assertConcurrency (concurrency_of options) = true →
  execution stackTrace i input mapper options evs = Some s →
  count_le (inFlight s) (concurrency_of options).
Proof.
  intros Hc Hrun.
  destruct (execution_cases _ _ _ _ _ _ Hrun)
    as [[_ [c Hs]]|(it & f & _ & _ & _ & Hr)].
  - eapply count_le_mono; [by apply count_le_zero|].
    destruct Hs as [-> | ->]; unfold inFlight; simpl;
      by rewrite map_filter_empty, map_size_empty.
  - eapply count_le_mono; [|apply inFlight_chains].
    apply window_chains; [done|].
    revert Hr. apply run_invariant; [|by apply started_window].
    intros ???. by apply window_step.
Qed.

(** *** Input validation *)

(** [x] is an integer. *)
Definition is_integer (x : jsnumber) : Prop :=
  ∃ z : Z, match x with Finite q => (q == inject_Z z)%Q | _ => False end.

(** [x] is 0, negative or not an integer, and is not [Infinity]. *)
Definition unacceptable (x : jsnumber) : Prop :=
  x ≠ PosInfinity ∧
  (¬ is_integer x ∨ match x with Finite q => (q <= 0)%Q | _ => False end).

(** [input] has neither [Symbol.iterator] nor [Symbol.asyncIterator]. *)
Definition not_iterable (input : iterable T) : Prop :=
  input = Primitive None ∨ input = Object None None.

Lemma unacceptable_refused c :
  unacceptable c → assertConcurrency c = false.
Proof.
  intros [Hinf H]. destruct c as [| | |q]; try done.
  unfold assertConcurrency. rewrite orb_false_r.
  destruct (isSafeInteger (Finite q)) eqn:Hs; [|done]. simpl.
  apply safe_integer_inject in Hs.
  destruct H as [H|H].
  - destruct H. by exists (Qnum (Qred q)).
  - destruct (Qle_bool 1 q) eqn:E; [|done].
    apply Qle_bool_iff in E. exfalso.
    assert (1 <= 0)%Q as H' by (eapply Qle_trans; eauto). by apply H'.
Qed.

(** C6. When [concurrency] is 0, negative or not an integer (and not
    [Infinity]), when the input is not iterable, or when the mapper is not a
    function, the promise [pMap] returns is rejected with the error of the
    failed check (a [PMapError] or a [TypeError]), no continuation is ever
    suspended, and the mapper is never called. *)
Theorem invalid_input_rejected i input mapper options evs s :
  unacceptable (concurrency_of options) ∨ not_iterable input ∨
    mapper = NotAFunction →
  execution stackTrace i input mapper options evs = Some s →
  evs = [] ∧ invoked s = [] ∧
  ∃ c, rejected s = Some (PMapError c) ∨ rejected s = Some (TypeError c).
Proof.
  intros Hbad Hrun.
  destruct (execution_cases _ _ _ _ _ _ Hrun)
    as [[-> [c Hs]]|(it & f & Hi & Hm & Hc & _)].
  - split; [done|]. destruct Hs as [-> | ->]; (split; [done|]); eauto.
  - exfalso. destruct Hbad as [H|[[-> | ->]| ->]]; try done.
    + apply unacceptable_refused in H. congruence.
    + by destruct i.
    + by destruct i.
Qed.

(** *** The success path *)

Lemma pMap_started i input f options it :
  get_iterator i input = Some it →
  assertConcurrency (concurrency_of options) = true →
  pMap i input (Function f) options = started (concurrency_of options) it.
Proof.
  intros Hi Hc. unfold pMap, validate. rewrite Hc, Hi.
  by destruct i, input as [[?|]|[?|] [?|]].
Qed.

Lemma success_path i input f options items outs evs s :
  get_iterator i input = Some (source_of items) →
  assertConcurrency (concurrency_of options) = true →
  mapped_to f items outs →
  execution stackTrace i input (Function f) options evs = Some s →
  length evs ≤ 11 * length items + 3 ∧
  (promise s ≠ None → fulfilled s = Some (expected outs)) ∧
  (terminal i (Function f) (concurrency_of options) (stopOnError_of options)
     stackTrace s →
   fulfilled s = Some (expected outs)).
Proof.
  intros Hi Hc Hm Hrun. unfold execution in Hrun.
  rewrite (pMap_started _ _ _ _ _ Hi Hc) in Hrun.
  eapply failure_free; eauto using valid_first_iteration.
Qed.


Lemma without_skipped_all (values : list (mapped R)) :
  Forall (λ v, v = pMapSkip) values → without_skipped values = [].
Proof. induction 1 as [|v l -> _ IH]; [done|]. done. Qed.



(** *** After the promise has settled *)

(** C2, as amended.  Once the promise [pMap] returned has settled, nothing a
    task that is still running does changes what the caller holds: the
    promise keeps its outcome, and the array it was fulfilled with is not
    written to again.  The flag [isResolved] guards the call of the mapper
    (in index.ts no mapper is called once it is set); it does not guard the
    writes to [result] and [errors] of a task whose mapper settles after a
    rejection, which no caller can observe. *)
Theorem settled_outcome_is_final
    i input mapper options evs evs' s s' :
  execution stackTrace i input mapper options evs = Some s →
  promise s ≠ None →
  execution stackTrace i input mapper options (evs ++ evs') = Some s' →
  promise s' = promise s ∧ fulfilled s' = fulfilled s ∧
  rejected s' = rejected s ∧ (i = TS → invoked s' = invoked s).
Proof.
  intros Hrun Hp Hrun'.
  assert (run i mapper (concurrency_of options) (stopOnError_of options)
            stackTrace s evs' = Some s') as Hrest.
  { unfold execution in *. rewrite run_app, Hrun in Hrun'. done. }
  destruct (execution_cases _ _ _ _ _ _ Hrun)
    as [[_ [c Hs]]|(it & f & _ & _ & Hc & Hr)].
  - assert (s' = s) as ->; [|done].
    destruct evs' as [|ev evs'']; simpl in Hrest; [by simplify_eq|].
    destruct Hs as [-> | ->]; by rewrite thrown_terminal in Hrest.
  - eapply settled_run; [|done|done].
    revert Hr. apply run_invariant.
    + intros ???. apply settled_ok_step.
    + by apply settled_ok_started, valid_first_iteration.
Qed.

(** *** Collected failures *)

(** The line of a failure in the message of the composite. *)
Definition line (e : ErrorLike) : jsstring :=
  AggregateError.indentString
    (AggregateError.describe (AggregateError.normalize stackTrace e))
    4 (jsstr " ") false.


(** *** A pull that fails after a failure *)


End Calls.

(** * Concrete runs *)

(** An engine that attaches no [stack] to an [Error]. *)
Definition noStack : jsstring → option jsstring := λ _, None.

Definition boom : ErrorLike := AggregateError.ErrString (jsstr "boom").
Definition foo : ErrorLike :=
  AggregateError.ErrObject
    (AggregateError.mkError (jsstr "Error") (jsstr "foo") None).
Definition bar : ErrorLike := AggregateError.ErrString (jsstr "bar").

(** Sources: arrays, an async generator that yields [1] and then throws,
    a generator that throws at once, and an object with both iteration
    methods. *)
Definition one_two : iterable nat := Object (Some (source_of [1; 2])) None.
Definition one_two_three : iterable nat :=
  Object (Some (source_of [1; 2; 3])) None.
Definition yields_then_throws : iterable nat :=
  Object None (Some [Yields (Fulfils 1); Throws boom]).
Definition throws_first : iterable nat :=
  Object (Some [Throws boom; Yields (Fulfils 1)]) None.
Definition both_protocols : iterable nat :=
  Object (Some (source_of [1])) (Some (source_of [2])).

(** Mappers. *)
Definition keep (x k : nat) : outcome (mapped nat) := Fulfils (Value x).
Definition times_ten (x k : nat) : outcome (mapped nat) :=
  Fulfils (Value (10 * x)).
Definition skip_two (x k : nat) : outcome (mapped nat) :=
  if Nat.eqb x 2 then Fulfils pMapSkip else Fulfils (Value (10 * x)).
Definition skip_all (x k : nat) : outcome (mapped nat) := Fulfils pMapSkip.
Definition fails_on_one (x k : nat) : outcome (mapped nat) :=
  if Nat.eqb x 1 then Rejects boom else Fulfils (Value (10 * x)).
Definition always_fails (x k : nat) : outcome (mapped nat) := Rejects foo.
Definition fails_each (x k : nat) : outcome (mapped nat) :=
  if Nat.eqb x 1 then Rejects foo else Rejects bar.

(** Options. *)
Definition at_most (n : Z) (stop : option bool) : Options :=
  mkOptions (Some (Finite (inject_Z n))) stop.

(** Two runners over three elements; the second mapper call settles
    first. *)
Definition interleaved : list event :=
  [IteratorSettles; RunnerResumes; IteratorSettles; RunnerResumes;
   ElementSettles 0; ElementSettles 1; MapperSettles 1; IteratorSettles;
   ElementSettles 2; MapperSettles 0; IteratorSettles; MapperSettles 2;
   IteratorSettles].

Lemma skip_two_mapped :
  mapped_to skip_two [1; 2; 3] [Value 10; pMapSkip; Value 30].
Proof.
  split; [reflexivity|].
  intros [|[|[|k]]] x Hx; simplify_eq/=; eexists; split; reflexivity.
Defined.


Lemma in_flight_at_most_concurrency_witness :
  ∃ s, execution noStack TS one_two_three (Function skip_two)
         (at_most 2 None) (take 6 interleaved) = Some s ∧
       inFlight s = 2 ∧
       count_le (inFlight s) (Finite (inject_Z 2)).
Proof.
  eexists. split; [vm_compute; reflexivity|]. split; [vm_compute; reflexivity|].
  apply (in_flight_at_most_concurrency noStack TS one_two_three
           (Function skip_two) (at_most 2 None) (take 6 interleaved)).
  - reflexivity.
  - vm_compute; reflexivity.
Defined.

Lemma zero_unacceptable : unacceptable (Finite (inject_Z 0)).
Proof. split; [discriminate|]. right. vm_compute. discriminate. Defined.

Lemma invalid_input_rejected_witness :
  ∃ s, execution noStack TS one_two_three (Function skip_two)
         (at_most 0 None) [] = Some s ∧
       invoked s = [] ∧
       rejected s = Some (PMapError ConcurrencyIsValid).
Proof.
  eexists. split; [vm_compute; reflexivity|].
  destruct (invalid_input_rejected noStack TS one_two_three
              (Function skip_two) (at_most 0 None) []
              (thrown_by_executor nat nat (PMapError ConcurrencyIsValid)))
    as (_ & H & _).
  - left. exact zero_unacceptable.
  - vm_compute; reflexivity.
  - split; [exact H|reflexivity].
Defined.

(** Unbounded concurrency over [[1; 2]]. *)
Definition unbounded : list event :=
  [IteratorSettles; RunnerResumes; IteratorSettles; RunnerResumes;
   ElementSettles 0; ElementSettles 1; MapperSettles 0; MapperSettles 1;
   IteratorSettles; RunnerResumes; IteratorSettles; IteratorSettles].

Lemma skip_all_mapped : mapped_to skip_all [1; 2] [pMapSkip; pMapSkip].
Proof.
  split; [reflexivity|].
  intros [|[|k]] x Hx; simplify_eq/=; eexists; split; reflexivity.
Defined.




(** Two mapper calls in flight, the first rejects. *)
Definition first_rejects : list event :=
  [IteratorSettles; RunnerResumes; IteratorSettles; ElementSettles 0;
   ElementSettles 1; MapperSettles 0].

(** The runner's second pull throws while the first mapper call is in
    flight. *)
Definition pull_throws : list event :=
  [IteratorSettles; RunnerResumes; ElementSettles 0; IteratorSettles;
   RunnerResumes].

(** C2, as stated, fails: after a rejection, the task whose mapper call
    settles next writes [result[1]]; and under [stopOnError = false], after
    the rejection for a failed pull, the task whose mapper call fails next
    appends to [errors]. *)
Lemma task_writes_after_rejection :
  (∃ s s',
     execution noStack TS one_two (Function fails_on_one)
       (at_most 2 (Some true)) first_rejects = Some s ∧
     isResolved s = true ∧ rejected s = Some (Thrown boom) ∧
     step TS (Function fails_on_one) (Finite (inject_Z 2)) true noStack s
       (MapperSettles 1) = Some s' ∧
     result s = [] ∧ result s' = [None; Some (Value 20)]) ∧
  (∃ s s',
     execution noStack TS yields_then_throws (Function always_fails)
       (at_most 2 (Some false)) pull_throws = Some s ∧
     isResolved s = true ∧ rejected s = Some (Thrown boom) ∧
     step TS (Function always_fails) (Finite (inject_Z 2)) false noStack s
       (MapperSettles 0) = Some s' ∧
     errors s = [] ∧ errors s' = [foo]).
Proof.
  split.
  - eexists _, _. split; [vm_compute; reflexivity|].
    split; [reflexivity|]. split; [reflexivity|].
    split; [vm_compute; reflexivity|]. split; reflexivity.
  - eexists _, _. split; [vm_compute; reflexivity|].
    split; [reflexivity|]. split; [reflexivity|].
    split; [vm_compute; reflexivity|]. split; reflexivity.
Defined.

Lemma settled_outcome_is_final_witness :
  ∃ s s',
    execution noStack TS one_two (Function fails_on_one)
      (at_most 2 (Some true)) first_rejects = Some s ∧
    execution noStack TS one_two (Function fails_on_one)
      (at_most 2 (Some true)) (first_rejects ++ [MapperSettles 1]) = Some s' ∧
    promise s' = promise s ∧ fulfilled s' = fulfilled s ∧
    rejected s' = rejected s ∧ (TS = TS → invoked s' = invoked s).
Proof.
  eexists _, _. split; [vm_compute; reflexivity|].
  split; [vm_compute; reflexivity|].
  apply (settled_outcome_is_final noStack TS one_two (Function fails_on_one)
           (at_most 2 (Some true)) first_rejects [MapperSettles 1]).
  - vm_compute; reflexivity.
  - vm_compute. intros E. discriminate E.
  - vm_compute; reflexivity.
Defined.

(** The order of the continuations when an async generator yields [1] and
    throws at the pull of the second runner, after the task of the first
    element has made its own pull. *)
Definition racing : list event :=
  [IteratorSettles; ElementSettles 0; RunnerResumes; MapperSettles 0;
   IteratorSettles; IteratorSettles; RunnerResumes].

(** C3, divergence.  With [stopOnError = true] and two runners over a source
    that yields [1] and then throws [boom]: the pull of the second runner
    fails, but before the runner resumes and calls [reject], the pull of the
    first task reports [done] and resolves the promise.  The failure is
    caught once the promise is fulfilled and is lost: the caller receives
    [[10]] and no continuation is left. *)
Theorem source_failure_swallowed (i : impl) :
  ∃ s, execution noStack i yields_then_throws (Function times_ten)
         (at_most 2 (Some true)) racing = Some s ∧
       caught s = [boom] ∧
       settlements s = [ResolvedResult; Rejected (Thrown boom)] ∧
       fulfilled s = Some [Some (Value 10)] ∧ rejected s = None ∧
       terminal i (Function times_ten) (Finite (inject_Z 2)) true noStack s.
Proof.
  destruct i.
  - eexists. split; [vm_compute; reflexivity|].
    split_and!; try reflexivity. by intros [].
  - eexists. split; [vm_compute; reflexivity|].
    split_and!; try reflexivity. by intros [].
Qed.


(** Both mapper calls fail, the second one first. *)
Definition second_fails_first : list event :=
  [IteratorSettles; RunnerResumes; IteratorSettles; RunnerResumes;
   ElementSettles 0; ElementSettles 1; MapperSettles 1; MapperSettles 0;
   IteratorSettles; IteratorSettles].



(** An async generator that yields [1] and [2] and then throws. *)
Definition two_then_throws : iterable nat :=
  Object None (Some [Yields (Fulfils 1); Yields (Fulfils 2); Throws boom]).

(** Both mapper calls fail and both tasks pull from their [catch] block;
    the first pull throws, the second reports [done] and runs before the
    first task resumes. *)
Definition done_overtakes : list event :=
  [IteratorSettles; RunnerResumes; IteratorSettles; RunnerResumes;
   ElementSettles 0; ElementSettles 1; MapperSettles 0; MapperSettles 1;
   IteratorSettles; IteratorSettles; NextRejects 0].


(** A string is iterable, but index.ts refuses it (the [in] operator throws
    on a primitive) where index.js maps its characters. *)
Lemma string_refused_by_ts (chars : list (pull nat)) f options :
  assertConcurrency (concurrency_of options) = true →
  rejected (pMap TS (Primitive (Some chars)) (Function f) options)
    = Some (TypeError InputIsIterable) ∧
  pMap JS (Primitive (Some chars)) (Function f) options
    = started (R:=nat) (concurrency_of options) chars.
Proof.
  intros Hc. split; [done|]. unfold pMap, validate. by rewrite Hc.
Qed.
